(** * spotify: credential store, token lifecycle and search facade

    A shallow embedding of [spotify/config.py] and [spotify/__init__.py].

    Python values are an inductive type, the class-level dictionary
    [Config.__meta__] and the YAML file are finite maps, and every method is
    a function in a state-and-exception monad over a [World] that holds the
    store, the file, the clock, the network, the callback listener and a
    trace of the observable effects.

    What stands outside the code is modelled by what the code sees of it:
    - the file system works, and the file, when it exists, holds a mapping
      (what [yaml.dump] of the record writes);
    - the HTTP transport records the request and delivers the next pending
      response, or raises when there is none;
    - [json.loads] and [str] are parameters of the client;
    - a string is the sequence of the bytes of its UTF-8 encoding, so it
      encodes to ASCII when every byte is below 128;
    - the listener handles its requests one after the other. *)

From stdpp Require Import gmap strings list fin_maps.
From Stdlib Require Import ZArith Ascii String.

Local Open Scope string_scope.
Local Open Scope Z_scope.
Local Open Scope list_scope.
Set Warnings "-register-all".

(** ** Python values *)

(** What [json.loads] and [yaml.safe_load] produce and what the store holds.
    Numbers are integers: of [time()] and of [expires_in] the code uses only
    addition and order. A dictionary is the list of its items. *)
Inductive pyval : Type :=
| PNone
| PBool (b : bool)
| PNum (n : Z)
| PStr (s : string)
| PList (l : list pyval)
| PDict (d : list (string * pyval)).

(** [bool(v)]: what [if v] and [not v] test. *)
Definition truthy (v : pyval) : bool :=
  match v with
  | PNone => false
  | PBool b => b
  | PNum n => negb (n =? 0)
  | PStr s => negb (String.eqb s "")
  | PList l => match l with [] => false | _ => true end
  | PDict d => match d with [] => false | _ => true end
  end.

(** The exceptions of the two modules and of the Python operations they
    use. [SpotifyError] carries what its message is formatted from;
    [MissingCredentials] is the [Exception] of [Client.__init__]. *)
Inductive exn : Type :=
| ConfigError (param : string)
| SpotifyError (status : Z) (reason : string) (data : string)
| MissingCredentials
| KeyError (key : string)
| IndexError
| TypeError
| AttributeError (name : string)
| JSONDecodeError
| OSError
| HTTPError
| UnicodeEncodeError.

Record HTTPResponse : Type := mkResponse {
  status : Z;
  reason : string;
  data : string
}.

(** The [Authorization] header of a request: [Basic] with the keys that
    are base64-encoded into it, [Bearer] with the token. *)
Inductive authorization : Type :=
| Basic (keys : string)
| Bearer (tok : string).

(** ** Observable effects *)

(** [Call m] marks the entry into the method [m] of [Client]; the other
    events are what the code does to the log, the browser, the network and
    the socket. *)
Inductive event : Type :=
| Call (method : string)
| Log (msg : string)
| BrowserOpen (url : string) (query : list (string * pyval))
| Request (method url : string) (fields : list (string * pyval))
    (auth : option authorization)
| Bind (port : Z)
| SendResponse (code : Z)
| SendHeader (key value : string)
| EndHeaders
| ShutdownThread.

(** ** The world *)

(** [Config.__meta__]: the record and the flag of the lazy load. *)
Record Meta : Type := mkMeta {
  meta_data : gmap string pyval;
  meta_loaded : bool
}.

Record World : Type := mkWorld {
  meta : Meta;
  (** the mapping in the file at [Config.path]; [None]: no such file *)
  disk : option (gmap string pyval);
  (** [time()]: the n-th call returns [clock n] *)
  clock : nat -> Z;
  ticks : nat;
  (** the responses the HTTP transport will deliver, in order *)
  net : list HTTPResponse;
  (** port 8888 can be bound *)
  port_free : bool;
  (** the paths of the requests that will reach the listener, in order *)
  inbound : list string;
  (** the class attribute [HTTPRequestHandler.spotify_code], unset at first *)
  spotify_code : option string;
  trace : list event
}.

Definition now (w : World) : Z := clock w (ticks w).

(** ** The monad: state that survives an exception *)

(** A call returns, raises, or never returns (the listener waiting for a
    request that does not come). *)
Inductive outcome (A : Type) : Type :=
| Ret (a : A)
| Raise (e : exn)
| Hang.
Arguments Ret {A} a.
Arguments Raise {A} e.
Arguments Hang {A}.

Definition M (A : Type) : Type := World -> outcome A * World.

Definition ret {A} (a : A) : M A := fun w => (Ret a, w).
Definition raise {A} (e : exn) : M A := fun w => (Raise e, w).
Definition hang {A} : M A := fun w => (Hang, w).

Definition bind {A B} (m : M A) (k : A -> M B) : M B :=
  fun w =>
    match m w with
    | (Ret a, w') => k a w'
    | (Raise e, w') => (Raise e, w')
    | (Hang, w') => (Hang, w')
    end.

Notation "'let*' x := m 'in' k" := (bind m (fun x => k))
  (at level 10, x name, m at level 100, k at level 200, only parsing).
Notation "m >>> k" := (bind m (fun _ => k))
  (at level 100, k at level 200, right associativity, only parsing).

Definition gets {A} (f : World -> A) : M A := fun w => (Ret (f w), w).

Definition put_meta (m : Meta) : M unit := fun w =>
  (Ret tt, mkWorld m (disk w) (clock w) (ticks w) (net w) (port_free w)
             (inbound w) (spotify_code w) (trace w)).

Definition put_disk (d : option (gmap string pyval)) : M unit := fun w =>
  (Ret tt, mkWorld (meta w) d (clock w) (ticks w) (net w) (port_free w)
             (inbound w) (spotify_code w) (trace w)).

Definition put_ticks (n : nat) : M unit := fun w =>
  (Ret tt, mkWorld (meta w) (disk w) (clock w) n (net w) (port_free w)
             (inbound w) (spotify_code w) (trace w)).

Definition put_net (l : list HTTPResponse) : M unit := fun w =>
  (Ret tt, mkWorld (meta w) (disk w) (clock w) (ticks w) l (port_free w)
             (inbound w) (spotify_code w) (trace w)).

Definition put_inbound (l : list string) : M unit := fun w =>
  (Ret tt, mkWorld (meta w) (disk w) (clock w) (ticks w) (net w) (port_free w)
             l (spotify_code w) (trace w)).

Definition put_code (c : option string) : M unit := fun w =>
  (Ret tt, mkWorld (meta w) (disk w) (clock w) (ticks w) (net w) (port_free w)
             (inbound w) c (trace w)).

Definition emit (e : event) : M unit := fun w =>
  (Ret tt, mkWorld (meta w) (disk w) (clock w) (ticks w) (net w) (port_free w)
             (inbound w) (spotify_code w) (trace w ++ [e])).

Definition log_info (msg : string) : M unit := emit (Log msg).

(** [time()] *)
Definition time : M Z :=
  let* t := gets now in
  let* n := gets ticks in
  put_ticks (S n) >>> ret t.

(** ** config.py *)

Module Config.

(** The annotations of [class Config], in order. *)
Definition fields : list string :=
  ["client"; "secret"; "token"; "refresh"; "validity"].

(** [MetaConfig.__new__]: every field maps to the empty string, nothing is
    loaded. *)
Definition new : Meta :=
  mkMeta (list_to_map ((fun f => (f, PStr "")) <$> fields)) false.

Definition load : M unit :=
  let* f := gets disk in
  let* _ :=
    match f with
    | Some content =>
        log_info "Reading config file" >>>
        let* m := gets meta in
        put_meta (mkMeta (content ∪ meta_data m) (meta_loaded m))
    | None => ret tt
    end in
  let* m := gets meta in
  put_meta (mkMeta (meta_data m) true).

Definition write : M unit :=
  log_info "Writing config file" >>>
  let* m := gets meta in
  put_disk (Some (meta_data m)).

Definition ensure_loaded : M unit :=
  let* m := gets meta in
  if meta_loaded m then ret tt else load.

Definition getattr (name : string) : M pyval :=
  let* m := gets meta in
  match meta_data m !! name with
  | None => raise (ConfigError name)
  | Some _ =>
      ensure_loaded >>>
      let* m' := gets meta in
      match meta_data m' !! name with
      | Some v => ret v
      | None => raise (KeyError name)
      end
  end.

(** The loop of [update] over [kwargs.items()]. *)
Fixpoint update_items (kwargs : list (string * pyval)) : M unit :=
  match kwargs with
  | [] => ret tt
  | (name, value) :: rest =>
      let* m := gets meta in
      match meta_data m !! name with
      | None => raise (ConfigError name)
      | Some _ =>
          ensure_loaded >>>
          let* m' := gets meta in
          put_meta (mkMeta (<[name := value]> (meta_data m')) (meta_loaded m'))
          >>> update_items rest
      end
  end.

(** A keyword named [self] collides with the parameter of
    [update(self, **kwargs)]: binding the arguments of the call fails. *)
Definition names_self (kwargs : list (string * pyval)) : bool :=
  existsb (fun kv => String.eqb kv.1 "self") kwargs.

(** [update]: the call raises [TypeError] when its arguments do not bind,
    before the body runs; the body is the loop and the write. *)
Definition update (kwargs : list (string * pyval)) : M unit :=
  if names_self kwargs then raise TypeError
  else update_items kwargs >>> write.

Definition setattr (name : string) (value : pyval) : M unit :=
  update [(name, value)].

End Config.

(** ** Operations of Python on values *)

(** The value of [key] among the items of a dictionary. *)
Definition dict_get (d : list (string * pyval)) (key : string) : option pyval :=
  snd <$> List.find (fun kv => String.eqb (fst kv) key) d.

(** [v[key]] for a string key. *)
Definition getitem (v : pyval) (key : string) : M pyval :=
  match v with
  | PDict d =>
      match dict_get d key with
      | Some x => ret x
      | None => raise (KeyError key)
      end
  | _ => raise TypeError
  end.

(** [v[0]] *)
Definition getitem0 (v : pyval) : M pyval :=
  match v with
  | PList (x :: _) => ret x
  | PList [] => raise IndexError
  | PStr (String c _) => ret (PStr (String c ""))
  | PStr "" => raise IndexError
  | PDict _ => raise (KeyError "0")
  | _ => raise TypeError
  end.

(** [t + v] for the float [t] that [time()] returned. *)
Definition add_time (t : Z) (v : pyval) : M pyval :=
  match v with
  | PNum n => ret (PNum (t + n))
  | PBool b => ret (PNum (t + Z.b2z b))
  | _ => raise TypeError
  end.

(** [v < t] for the float [t] that [time()] returned. *)
Definition lt_time (v : pyval) (t : Z) : M bool :=
  match v with
  | PNum n => ret (n <? t)
  | PBool b => ret (Z.b2z b <? t)
  | _ => raise TypeError
  end.

(** [s.split(sep)] for a separator of one character. *)
Fixpoint split (sep : ascii) (s : string) : list string :=
  match s with
  | "" => [""]
  | String c s' =>
      if Ascii.eqb c sep then "" :: split sep s'
      else match split sep s' with
           | h :: t => String c h :: t
           | [] => [String c ""]
           end
  end.

(** [s.encode("ascii")] succeeds: every character is below 128. *)
Definition is_ascii (c : ascii) : bool :=
  match c with Ascii _ _ _ _ _ _ _ b7 => negb b7 end.

Fixpoint ascii_only (s : string) : bool :=
  match s with
  | "" => true
  | String c s' => is_ascii c && ascii_only s'
  end.

(** [" ".join(q)] *)
Fixpoint join (sep : string) (q : list string) : string :=
  match q with
  | [] => ""
  | [x] => x
  | x :: rest => x +:+ sep +:+ join sep rest
  end.

(** ** __init__.py *)

Record SpotifyTrack : Type := mkTrack {
  artist : pyval;
  title : pyval;
  album : pyval;
  uri : pyval
}.

(** What [search] returns: [None], one track, or a list of tracks. *)
Inductive search_result : Type :=
| NoResult
| OneTrack (t : SpotifyTrack)
| Tracks (l : list SpotifyTrack).

Module HTTPRequestHandler.

Definition do_GET (path : string) : M unit :=
  match split "=" path with
  | _ :: code :: _ =>
      put_code (Some code) >>>
      emit (SendResponse 200) >>>
      emit (SendHeader "Content-type" "text/html") >>>
      emit EndHeaders >>>
      emit ShutdownThread
  | _ => raise IndexError
  end.

End HTTPRequestHandler.

(** [HTTPServer.serve_forever] of the standard library, sequentially: the
    requests are handled in order, an exception of the handler is reported
    and the loop goes on, and the loop ends once a handler has started the
    shutdown thread. When no request completes, the call never returns. *)
Fixpoint serve (requests : list string) : M unit :=
  match requests with
  | [] => hang
  | path :: rest =>
      put_inbound rest >>>
      fun w =>
        match HTTPRequestHandler.do_GET path w with
        | (Ret _, w') => (Ret tt, w')
        | (_, w') => serve rest w'
        end
  end.

Definition serve_forever : M unit :=
  let* requests := gets inbound in serve requests.

(** The transport: the request is recorded, the next response delivered. *)
Definition request (method url : string) (fields : list (string * pyval))
    (auth : option authorization) : M HTTPResponse :=
  emit (Request method url fields auth) >>>
  let* pending := gets net in
  match pending with
  | r :: rest => put_net rest >>> ret r
  | [] => raise HTTPError
  end.

Module Client.

Definition accounts_url : string := "https://accounts.spotify.com".
Definition api_url : string := "https://api.spotify.com/v1".
Definition redirect_uri : string := "http://localhost:8888".

Section WithJson.

(** [json.loads]; [None] when it raises. *)
Variable loads : string -> option pyval.

(** [str(v)]: the text that an f-string inserts for [v]. *)
Variable format : pyval -> string.

Definition init : M unit :=
  let* c := Config.getattr "client" in
  if truthy c then
    let* s := Config.getattr "secret" in
    if truthy s then ret tt else raise MissingCredentials
  else raise MissingCredentials.

Definition response (r : HTTPResponse) (success_code : Z) : M pyval :=
  if negb (status r =? success_code)
  then raise (SpotifyError (status r) (reason r) (data r))
  else match loads (data r) with
       | Some v => ret v
       | None => raise JSONDecodeError
       end.

Definition authenticate (code : string) : M unit :=
  emit (Call "authenticate") >>>
  let* client := Config.getattr "client" in
  let* secret := Config.getattr "secret" in
  let payload := [("code", PStr code);
                  ("redirect_uri", PStr redirect_uri);
                  ("grant_type", PStr "authorization_code");
                  ("client_id", client);
                  ("client_secret", secret)] in
  log_info "Authenticating client" >>>
  let* r := request "POST" (accounts_url +:+ "/api/token") payload None in
  let* d := response r 200 in
  let* access := getitem d "access_token" in
  let* t := time in
  let* expires_in := getitem d "expires_in" in
  let* validity := add_time t expires_in in
  let* fresh := getitem d "refresh_token" in
  Config.update [("token", access); ("validity", validity);
                 ("refresh", fresh)].

Definition authorize : M unit :=
  emit (Call "authorize") >>>
  let* client := Config.getattr "client" in
  let payload := [("client_id", client);
                  ("response_type", PStr "code");
                  ("redirect_uri", PStr redirect_uri);
                  ("scope", PStr "playlist-modify-public")] in
  log_info "Opening browser for authorization" >>>
  emit (BrowserOpen (accounts_url +:+ "/authorize") payload) >>>
  let* free := gets port_free in
  (if free then emit (Bind 8888) else raise OSError) >>>
  log_info "Listening for authentication callback" >>>
  serve_forever >>>
  let* code := gets spotify_code in
  match code with
  | Some c => authenticate c
  | None => raise (AttributeError "spotify_code")
  end.

Definition refresh : M unit :=
  emit (Call "refresh") >>>
  let* old := Config.getattr "refresh" in
  let payload := [("refresh_token", old);
                  ("grant_type", PStr "refresh_token")] in
  let* client := Config.getattr "client" in
  let* secret := Config.getattr "secret" in
  let keys := format client +:+ ":" +:+ format secret in
  (if ascii_only keys then ret tt else raise UnicodeEncodeError) >>>
  log_info "Refreshing token" >>>
  let* r := request "POST" (accounts_url +:+ "/api/token") payload
              (Some (Basic keys)) in
  let* d := response r 200 in
  let* access := getitem d "access_token" in
  let* t := time in
  let* expires_in := getitem d "expires_in" in
  let* validity := add_time t expires_in in
  Config.update [("token", access); ("validity", validity)].

Definition token : M pyval :=
  let* tok := Config.getattr "token" in
  (if negb (truthy tok) then authorize
   else
     let* validity := Config.getattr "validity" in
     let* t := time in
     let* expired := lt_time validity t in
     if expired then refresh else ret tt) >>>
  Config.getattr "token".

(** One element of the list comprehension of [search]. *)
Definition track_of (item : pyval) : M SpotifyTrack :=
  let* u := getitem item "id" in
  let* n := getitem item "name" in
  let* artists := getitem item "artists" in
  let* first := getitem0 artists in
  let* a := getitem first "name" in
  let* al := getitem item "album" in
  let* aln := getitem al "name" in
  ret (mkTrack a n aln u).

Fixpoint tracks_of (items : list pyval) : M (list SpotifyTrack) :=
  match items with
  | [] => ret []
  | item :: rest =>
      let* t := track_of item in
      let* ts := tracks_of rest in
      ret (t :: ts)
  end.

Definition search (artist title : string) (limit : Z) : M search_result :=
  let q := [] in
  let q := if negb (String.eqb artist "")
           then app q ["artist:" +:+ artist] else q in
  let q := if negb (String.eqb title "")
           then app q ["track:" +:+ title] else q in
  let params := [("limit", PNum limit);
                 ("type", PStr "track");
                 ("q", PStr (join " " q))] in
  let* tok := token in
  let* r := request "GET" (api_url +:+ "/search") params
              (Some (Bearer (format tok))) in
  let* d := response r 200 in
  let* tracks := getitem d "tracks" in
  let* items := getitem tracks "items" in
  if truthy items then
    match items with
    | PList l =>
        let* ts := tracks_of l in
        if limit =? 1
        then match ts with
             | t :: _ => ret (OneTrack t)
             | [] => raise IndexError
             end
        else ret (Tracks ts)
    | _ => raise TypeError
    end
  else ret NoResult.

(** [replace]. The request carries the body before [json.dumps] as its
    fields; its [Content-Type] header is not recorded. *)
Definition replace (playlist : string) (tracks : list SpotifyTrack) : M unit :=
  let* tok := token in
  let url := api_url +:+ "/playlists/" +:+ playlist +:+ "/tracks" in
  let body :=
    [("uris",
      PList ((fun t => PStr ("spotify:track:" +:+ format (uri t))) <$> tracks))]
  in
  log_info "Updating playlist" >>>
  let* r := request "PUT" url body (Some (Bearer (format tok))) in
  response r 201 >>> ret tt.

End WithJson.

End Client.

(** ** Vocabulary of the statements *)

(** The record as the store presents it: the in-memory record once the lazy
    load has merged the file into it. *)
Definition view (w : World) : gmap string pyval :=
  if meta_loaded (meta w) then meta_data (meta w)
  else match disk w with
       | Some content => content ∪ meta_data (meta w)
       | None => meta_data (meta w)
       end.

Definition load_events (w : World) : list event :=
  if meta_loaded (meta w) then []
  else match disk w with
       | Some _ => [Log "Reading config file"]
       | None => []
       end.

(** The world after the lazy load, if it was still due. *)
Definition settle (w : World) : World :=
  mkWorld (mkMeta (view w) true) (disk w) (clock w) (ticks w) (net w)
    (port_free w) (inbound w) (spotify_code w) (trace w ++ load_events w).

(** [w] with the in-memory record replaced by [d]. *)
Definition with_data (d : gmap string pyval) (w : World) : World :=
  mkWorld (mkMeta d (meta_loaded (meta w))) (disk w) (clock w) (ticks w)
    (net w) (port_free w) (inbound w) (spotify_code w) (trace w).

(** [w] after [Config.write]. *)
Definition written (w : World) : World :=
  mkWorld (meta w) (Some (meta_data (meta w))) (clock w) (ticks w) (net w)
    (port_free w) (inbound w) (spotify_code w)
    (trace w ++ [Log "Writing config file"]).

(** [w] after [emit e]. *)
Definition emitted (e : event) (w : World) : World :=
  mkWorld (meta w) (disk w) (clock w) (ticks w) (net w) (port_free w)
    (inbound w) (spotify_code w) (trace w ++ [e]).

(** [w] after one call of [time()]. *)
Definition ticked (w : World) : World :=
  mkWorld (meta w) (disk w) (clock w) (S (ticks w)) (net w) (port_free w)
    (inbound w) (spotify_code w) (trace w).

(** The invariant of the store: the record has every field of [Config]. *)
Definition valid (w : World) : Prop :=
  ∀ k, k ∈ Config.fields → is_Some (meta_data (meta w) !! k).

(** Every key of the batch is a key of the in-memory record. *)
Definition known (w : World) (kwargs : list (string * pyval)) : Prop :=
  Forall (fun kv => is_Some (meta_data (meta w) !! kv.1)) kwargs.

(** [d] after the assignments [d[name] = value] of a batch, in order. *)
Definition assign (kwargs : list (string * pyval)) (d : gmap string pyval)
    : gmap string pyval :=
  foldl (fun acc kv => <[kv.1 := kv.2]> acc) d kwargs.

(** A store at first use: the class as [MetaConfig.__new__] builds it, no
    file, a clock that starts at 1000, port 8888 free. *)
Definition fresh_world : World :=
  mkWorld Config.new None (fun n => 1000 + Z.of_nat n) 0%nat [] true [] None [].

(** Bodies that the sample server sends, by name. *)
Definition token_body (rotate : bool) : pyval :=
  PDict ([("access_token", PStr "A2"); ("expires_in", PNum 3600)]
         ++ if rotate then [("refresh_token", PStr "R2")] else []).

Definition sample_item (id name who record : string) : pyval :=
  PDict [("id", PStr id); ("name", PStr name);
         ("artists", PList [PDict [("name", PStr who)]]);
         ("album", PDict [("name", PStr record)])].

Definition search_body : pyval :=
  PDict [("tracks",
          PDict [("items",
                  PList [sample_item "t1" "One More Time" "Daft Punk"
                           "Discovery";
                         sample_item "t2" "One More Time (live)" "Daft Punk"
                           "Alive 2007"])])].

(** [str] on the values of the samples. *)
Definition sample_format (v : pyval) : string :=
  match v with
  | PStr s => s
  | PNone => "None"
  | PBool true => "True"
  | PBool false => "False"
  | _ => "?"
  end.

Definition sample_loads (s : string) : option pyval :=
  if String.eqb s "token, rotated" then Some (token_body true)
  else if String.eqb s "token" then Some (token_body false)
  else if String.eqb s "tracks" then Some search_body
  else None.



(** A loaded store that holds the application's keys, the access token
    [A1], the refresh token [R1] and the given expiry, with the given
    responses pending. The clock reads 1000. *)
Definition stored_world (validity : Z) (responses : list HTTPResponse)
    : World :=
  mkWorld
    (mkMeta (list_to_map [("client", PStr "app"); ("secret", PStr "key");
                          ("token", PStr "A1"); ("refresh", PStr "R1");
                          ("validity", PNum validity)])
       true)
    None (fun n => 1000 + Z.of_nat n) 0%nat responses true [] None [].

(** A first run: nothing stored, a browser that first asks for the icon
    and then follows the redirect, and the token endpoint answering. *)
Definition first_run_world : World :=
  mkWorld Config.new None (fun n => 1000 + Z.of_nat n) 0%nat
    [mkResponse 200 "OK" "token, rotated"] true
    ["/favicon.ico"; "/?code=abc"] None [].

(** Counting events. *)
Definition occurrences (f : event → bool) (evs : list event) : nat :=
  List.length (List.filter f evs).

Definition is_call (name : string) (e : event) : bool :=
  match e with Call m => String.eqb m name | _ => false end.

Definition is_browser (e : event) : bool :=
  match e with BrowserOpen _ _ => true | _ => false end.

Definition is_request (e : event) : bool :=
  match e with Request _ _ _ _ => true | _ => false end.

Definition is_write (e : event) : bool :=
  match e with Log msg => String.eqb msg "Writing config file" | _ => false end.

(** Classes of events, by what may emit them. *)
Definition store_event (e : event) : Prop :=
  match e with Log _ => True | _ => False end.

Definition transport_event (e : event) : Prop :=
  match e with Log _ | Request _ _ _ _ => True | _ => False end.

Definition below_entry (e : event) : Prop :=
  is_call "authorize" e = false ∧ is_call "refresh" e = false.

(** [m] only appends to the trace, and only events of the class [P]. *)
Definition emits {A} (P : event → Prop) (m : M A) : Prop :=
  ∀ w, ∃ evs, trace (m w).2 = trace w ++ evs ∧ Forall P evs.

(** *** Sequences of store operations *)

Inductive store_op : Type :=
| Get (k : string)
| Put (k : string) (v : pyval).

Definition op_key (o : store_op) : string :=
  match o with Get k => k | Put k _ => k end.

Definition run_op (o : store_op) : M unit :=
  match o with
  | Get k => Config.getattr k >>> ret tt
  | Put k v => Config.setattr k v
  end.

Fixpoint run_ops (ops : list store_op) : M unit :=
  match ops with
  | [] => ret tt
  | o :: rest => run_op o >>> run_ops rest
  end.

(** The value of the most recent [Put k] of a sequence, if any. *)
Fixpoint last_put (k : string) (ops : list store_op) : option pyval :=
  match ops with
  | [] => None
  | o :: rest =>
      match last_put k rest with
      | Some v => Some v
      | None =>
          match o with
          | Put k' v => if String.eqb k' k then Some v else None
          | Get _ => None
          end
      end
  end.

Definition has_put (ops : list store_op) : bool :=
  existsb (fun o => match o with Put _ _ => true | Get _ => false end) ops.

(** *** Request paths *)

Fixpoint occurs (c : ascii) (s : string) : bool :=
  match s with
  | "" => false
  | String x s' => Ascii.eqb x c || occurs c s'
  end.

(** The claim's reading of the code: the suffix after the last [sep]. *)
Fixpoint after_last (sep : ascii) (s : string) : string :=
  match s with
  | "" => ""
  | String x s' =>
      if occurs sep s' then after_last sep s'
      else if Ascii.eqb x sep then s' else s
  end.

(** A path whose first [=] follows [pre] and is followed by [c], which
    runs to the end of the path ([rest = None]) or to the next [=]. *)
Definition request_path (pre c : string) (rest : option string) : string :=
  pre +:+ String "=" (c +:+ match rest with
                           | Some r => String "=" r
                           | None => ""
                           end).

(** [w] once [do_GET] has captured [code] and replied. *)
Definition captured (code : string) (w : World) : World :=
  mkWorld (meta w) (disk w) (clock w) (ticks w) (net w) (port_free w)
    (inbound w) (Some code)
    (trace w ++ [SendResponse 200; SendHeader "Content-type" "text/html";
                 EndHeaders; ShutdownThread]).

(** *** Search results *)

(** [t] is the track that [search] builds from [item]. *)
Definition built_from (item : pyval) (t : SpotifyTrack) : Prop :=
  ∃ fs first others alb,
    item = PDict fs ∧
    dict_get fs "id" = Some (uri t) ∧
    dict_get fs "name" = Some (title t) ∧
    dict_get fs "artists" = Some (PList (PDict first :: others)) ∧
    dict_get first "name" = Some (artist t) ∧
    dict_get fs "album" = Some (PDict alb) ∧
    dict_get alb "name" = Some (album t).

(** *** Further vocabulary *)

Definition is_read (e : event) : bool :=
  match e with Log msg => String.eqb msg "Reading config file" | _ => false end.

(** The loads that the store still owes: one until the file has been
    merged, none afterwards. *)
Definition loads_due (w : World) : nat :=
  if meta_loaded (meta w) then 0%nat else 1%nat.

(** [m] reads the file only if the load is still due. *)
Definition reads_within_due {A} (m : M A) : Prop :=
  ∀ w, ∃ evs,
    trace (m w).2 = trace w ++ evs ∧
    (occurrences is_read evs + loads_due (m w).2 ≤ loads_due w)%nat.

(** A new process over the same file: the class is built anew, the file,
    the clock and the network are as they were. *)
Definition restart (w : World) : World :=
  mkWorld Config.new (disk w) (clock w) (ticks w) (net w) (port_free w)
    (inbound w) None (trace w).

(** [w] after the transport has delivered the first pending response. *)
Definition delivered (rest : list HTTPResponse) (w : World) : World :=
  mkWorld (meta w) (disk w) (clock w) (ticks w) rest (port_free w)
    (inbound w) (spotify_code w) (trace w).

(** [w] with the requests [l] left to reach the listener. *)
Definition with_inbound (l : list string) (w : World) : World :=
  mkWorld (meta w) (disk w) (clock w) (ticks w) (net w) (port_free w)
    l (spotify_code w) (trace w).

(** [float + v] and [v < float] are defined: [v] is a number or a
    boolean. *)
Definition numeric (v : pyval) : bool :=
  match v with PNum _ | PBool _ => true | _ => false end.

(** The [q] parameter of a search, case by case. *)
Definition search_query (artist title : string) : string :=
  match artist, title with
  | "", "" => ""
  | "", _ => "track:" +:+ title
  | _, "" => "artist:" +:+ artist
  | _, _ => "artist:" +:+ artist +:+ " track:" +:+ title
  end.

(** The request that [search] sends. *)
Definition search_request (format : pyval → string) (artist title : string)
    (limit : Z) (tok : pyval) : event :=
  Request "GET" (Client.api_url +:+ "/search")
    [("limit", PNum limit); ("type", PStr "track");
     ("q", PStr (search_query artist title))]
    (Some (Bearer (format tok))).

(** The request that [replace] sends. *)
Definition replace_request (format : pyval → string) (playlist : string)
    (tracks : list SpotifyTrack) (tok : pyval) : event :=
  Request "PUT" (Client.api_url +:+ "/playlists/" +:+ playlist +:+ "/tracks")
    [("uris",
      PList ((fun t => PStr ("spotify:track:" +:+ format (uri t))) <$> tracks))]
    (Some (Bearer (format tok))).

(** What [Client.response] makes of a response. *)
Definition response_outcome (loads : string → option pyval)
    (r : HTTPResponse) (success_code : Z) : outcome pyval :=
  if status r =? success_code
  then match loads (data r) with
       | Some v => Ret v
       | None => Raise JSONDecodeError
       end
  else Raise (SpotifyError (status r) (reason r) (data r)).

(** The world in which [authorize] has opened the browser for the client
    id [c] and is about to bind the port. *)
Definition browser_opened (c : pyval) (w : World) : World :=
  emitted
    (BrowserOpen (Client.accounts_url +:+ "/authorize")
       [("client_id", c); ("response_type", PStr "code");
        ("redirect_uri", PStr Client.redirect_uri);
        ("scope", PStr "playlist-modify-public")])
    (emitted (Log "Opening browser for authorization")
       (settle (emitted (Call "authorize") w))).

(** [m] leaves the world as it is, whatever its outcome. *)
Definition inert {A} (m : M A) : Prop := ∀ w, (m w).2 = w.

(** [m] keeps the property [I] of the world, whatever its outcome. *)
Definition preserves {A} (I : World → Prop) (m : M A) : Prop :=
  ∀ w, I w → I (m w).2.

(** A store in which an access token was put by hand, without an expiry. *)
Definition hand_edited_world : World :=
  mkWorld Config.new
    (Some (list_to_map [("client", PStr "app"); ("secret", PStr "key");
                        ("token", PStr "A1"); ("extra", PStr "more")]))
    (fun n => 1000 + Z.of_nat n) 0%nat [] true [] None [].

(** A loaded store whose client id is not ASCII: it ends in the two bytes
    of an accented letter. *)
Definition accented_world : World :=
  mkWorld
    (mkMeta (list_to_map
               [("client", PStr (String "195" (String "169" "")));
                ("secret", PStr "key");
                ("token", PStr "A1"); ("refresh", PStr "R1");
                ("validity", PNum 0)])
       true)
    None (fun n => 1000 + Z.of_nat n) 0%nat
    [mkResponse 200 "OK" "token"] true [] None [].

(** ** The store *)

Section StoreFacts.

Implicit Types (w : World) (k : string) (v : pyval).

Lemma settle_loaded w : meta_loaded (meta w) = true → settle w = w.
Proof.
  destruct w as [[d l] f c n r p i s t]; simpl; intros ->.
  unfold settle, view, load_events; simpl. by rewrite app_nil_r.
Qed.

Lemma settle_settle w : settle (settle w) = settle w.
Proof. by apply settle_loaded. Qed.

Lemma ensure_loaded_settle w : Config.ensure_loaded w = (Ret tt, settle w).
Proof.
  destruct w as [[d l] f c n r p i s t].
  destruct l, f; unfold settle, view, load_events; simpl;
    by rewrite ?app_nil_r.
Qed.

Lemma view_superset w k :
  is_Some (meta_data (meta w) !! k) → is_Some (view w !! k).
Proof.
  unfold view. destruct (meta_loaded (meta w)); [done|].
  destruct (disk w); [|done].
  intros H. apply lookup_union_is_Some. by right.
Qed.

Lemma valid_settle w : valid w → valid (settle w).
Proof. intros H k Hk. simpl. apply view_superset. by apply H. Qed.

Lemma view_settle w : view (settle w) = view w.
Proof. reflexivity. Qed.

Lemma getattr_known w k v :
  is_Some (meta_data (meta w) !! k) → view w !! k = Some v →
  Config.getattr k w = (Ret v, settle w).
Proof.
  intros [x Hx] Hv. unfold Config.getattr, bind, gets. rewrite Hx.
  rewrite ensure_loaded_settle. simpl. by rewrite Hv.
Qed.

Lemma getattr_unknown w k :
  meta_data (meta w) !! k = None →
  Config.getattr k w = (Raise (ConfigError k), w).
Proof. intros H. unfold Config.getattr, bind, gets. by rewrite H. Qed.

Lemma getattr_valid w k :
  valid w → k ∈ Config.fields →
  ∃ v, view w !! k = Some v ∧ Config.getattr k w = (Ret v, settle w).
Proof.
  intros Hw Hk. destruct (view_superset w k (Hw k Hk)) as [v Hv].
  exists v. split; [done|]. apply getattr_known; auto.
Qed.

Lemma with_data_id w : with_data (meta_data (meta w)) w = w.
Proof. by destruct w as [[d l] f c n r p i s t]. Qed.

Lemma known_insert w kwargs k v :
  known w kwargs →
  known (with_data (<[k := v]> (meta_data (meta w))) w) kwargs.
Proof.
  unfold known. intros H. eapply Forall_impl; [exact H|].
  intros [x y] [z Hz]; simpl in *.
  destruct (decide (k = x)) as [->|Hne].
  - rewrite lookup_insert_eq. eauto.
  - rewrite lookup_insert_ne; eauto.
Qed.

Lemma known_settle w kwargs : known w kwargs → known (settle w) kwargs.
Proof.
  unfold known. intros H. eapply Forall_impl; [exact H|].
  intros kv Hkv. by apply view_superset.
Qed.

Lemma update_items_cons k v rest w :
  Config.update_items ((k, v) :: rest) w
  = match meta_data (meta w) !! k with
    | Some _ =>
        Config.update_items rest (with_data (<[k := v]> (view w)) (settle w))
    | None => (Raise (ConfigError k), w)
    end.
Proof.
  cbn [Config.update_items]. unfold bind at 1. unfold gets at 1.
  destruct (meta_data (meta w) !! k); [|done].
  unfold bind at 1. by rewrite ensure_loaded_settle.
Qed.

Lemma update_items_loaded kwargs : ∀ w,
  meta_loaded (meta w) = true → known w kwargs →
  Config.update_items kwargs w
  = (Ret tt, with_data (assign kwargs (meta_data (meta w))) w).
Proof.
  induction kwargs as [|[k v] rest IH]; intros w Hl Hk.
  - simpl. unfold ret. by rewrite with_data_id.
  - apply Forall_cons in Hk as [[x Hx] Hrest]. simpl in Hx.
    rewrite update_items_cons, Hx, (settle_loaded w Hl).
    unfold view. rewrite Hl, IH; [done|done|].
    by apply (known_insert w rest k v).
Qed.

Lemma update_items_known kwargs w :
  kwargs ≠ [] → known w kwargs →
  Config.update_items kwargs w
  = (Ret tt, with_data (assign kwargs (view w)) (settle w)).
Proof.
  destruct kwargs as [|[k v] rest]; [done|]. intros _ Hk.
  apply Forall_cons in Hk as [[x Hx] Hrest]. simpl in Hx.
  rewrite update_items_cons, Hx, update_items_loaded; [done|done|].
  apply (known_insert (settle w) rest k v). by apply known_settle.
Qed.

Lemma update_binds kwargs w :
  Config.names_self kwargs = false →
  Config.update kwargs w
  = bind (Config.update_items kwargs) (fun _ => Config.write) w.
Proof. intros Hself. unfold Config.update. by rewrite Hself. Qed.

Lemma update_self kwargs w :
  Config.names_self kwargs = true →
  Config.update kwargs w = (Raise TypeError, w).
Proof. intros Hself. unfold Config.update. by rewrite Hself. Qed.

Lemma fields_not_self k : k ∈ Config.fields → String.eqb k "self" = false.
Proof.
  unfold Config.fields. intros Hk.
  repeat (apply elem_of_cons in Hk as [->|Hk]; [done|]).
  by apply elem_of_nil in Hk.
Qed.

Lemma names_self_fields kwargs :
  Forall (fun kv => kv.1 ∈ Config.fields) kwargs →
  Config.names_self kwargs = false.
Proof.
  unfold Config.names_self. induction 1 as [|kv rest Hkv _ IH]; [done|].
  simpl. by rewrite (fields_not_self _ Hkv), IH.
Qed.

Lemma update_known kwargs w :
  kwargs ≠ [] → known w kwargs → Config.names_self kwargs = false →
  Config.update kwargs w
  = (Ret tt, written (with_data (assign kwargs (view w)) (settle w))).
Proof.
  intros Hne Hk Hself. rewrite update_binds by done. unfold bind at 1.
  by rewrite update_items_known.
Qed.

Lemma update_items_rejects_loaded pre k v post : ∀ w,
  meta_loaded (meta w) = true → known w pre →
  meta_data (meta w) !! k = None →
  Config.update_items (pre ++ (k, v) :: post) w
  = (Raise (ConfigError k), with_data (assign pre (meta_data (meta w))) w).
Proof.
  induction pre as [|[a b] pre IH]; intros w Hl Hk Hnone.
  - simpl app. rewrite update_items_cons, Hnone. unfold assign. simpl.
    by rewrite with_data_id.
  - apply Forall_cons in Hk as [[x Hx] Hrest]. simpl in Hx.
    simpl app. rewrite update_items_cons, Hx, (settle_loaded w Hl).
    unfold view. rewrite Hl, IH; [done|done| |].
    + by apply (known_insert w pre a b).
    + simpl. rewrite lookup_insert_ne; [done|].
      intros ->. by rewrite Hx in Hnone.
Qed.

Lemma occurrences_app f (l1 l2 : list event) :
  occurrences f (l1 ++ l2) = (occurrences f l1 + occurrences f l2)%nat.
Proof. unfold occurrences. by rewrite List.filter_app, length_app. Qed.

Lemma load_events_no_write w : occurrences is_write (load_events w) = 0%nat.
Proof.
  unfold load_events. destruct (meta_loaded (meta w)); [done|].
  by destruct (disk w).
Qed.

Lemma view_unknown w k :
  meta_data (meta w) !! k = None →
  (∀ content, disk w = Some content → content !! k = None) →
  view w !! k = None.
Proof.
  intros Hd Hf. unfold view. destruct (meta_loaded (meta w)); [done|].
  destruct (disk w) as [c|]; [|done].
  apply lookup_union_None. split; [by apply Hf | done].
Qed.

Lemma valid_put w k v :
  valid w → valid (written (with_data (<[k := v]> (view w)) (settle w))).
Proof.
  intros Hw f Hf. simpl. destruct (decide (k = f)) as [->|Hne].
  - rewrite lookup_insert_eq. eauto.
  - rewrite lookup_insert_ne by done. apply view_superset. by apply Hw.
Qed.

Lemma run_op_valid o w :
  valid w → op_key o ∈ Config.fields →
  run_op o w
  = (Ret tt,
     match o with
     | Get _ => settle w
     | Put k v => written (with_data (<[k := v]> (view w)) (settle w))
     end).
Proof.
  intros Hw Hk. destruct o as [k|k v]; simpl in *.
  - destruct (getattr_valid w k Hw Hk) as (v & _ & Hg).
    unfold bind. by rewrite Hg.
  - unfold Config.setattr. rewrite update_known; [done|done| |].
    + apply Forall_singleton. simpl. by apply Hw.
    + apply names_self_fields. by apply Forall_singleton.
Qed.

Lemma run_ops_spec ops : ∀ w,
  valid w → Forall (fun o => op_key o ∈ Config.fields) ops →
  ∃ w', run_ops ops w = (Ret tt, w') ∧ valid w' ∧
    (∀ k, view w' !! k
          = match last_put k ops with
            | Some v => Some v
            | None => view w !! k
            end) ∧
    (has_put ops = true →
       meta_loaded (meta w') = true ∧
       disk w' = Some (meta_data (meta w'))) ∧
    (has_put ops = false → meta_loaded (meta w) = true → w' = w).
Proof.
  induction ops as [|o ops IH]; intros w Hw Hops.
  - exists w. by repeat split.
  - apply Forall_cons in Hops as [Ho Hops].
    pose proof (run_op_valid o w Hw Ho) as Hrun.
    set (w1 := match o with
               | Get _ => settle w
               | Put k v => written (with_data (<[k := v]> (view w)) (settle w))
               end) in Hrun.
    assert (Hw1 : valid w1).
    { subst w1. destruct o; [by apply valid_settle | by apply valid_put]. }
    assert (Hl1 : meta_loaded (meta w1) = true) by (subst w1; by destruct o).
    destruct (IH w1 Hw1 Hops) as (w' & Hrest & Hw' & Hview & Hput & Hget).
    exists w'. cbn [run_ops]. unfold bind at 1. rewrite Hrun.
    split; [done|]. split; [done|]. split; [|split].
    + intros k. rewrite Hview. simpl. destruct (last_put k ops); [done|].
      subst w1. destruct o as [k'|k' v]; [done|].
      unfold view at 1. simpl.
      destruct (String.eqb_spec k' k) as [->|Hne].
      * by rewrite lookup_insert_eq.
      * by rewrite lookup_insert_ne.
    + intros Hp. destruct (has_put ops) eqn:Hops'; [by apply Hput|].
      rewrite (Hget eq_refl Hl1). split; [done|].
      subst w1. destruct o; [|done]. simpl in Hp. by rewrite Hops' in Hp.
    + intros Hp Hl. simpl in Hp. apply orb_false_iff in Hp as [Ho' Hp].
      rewrite (Hget Hp Hl1). subst w1. destruct o; [|done].
      by apply settle_loaded.
Qed.

End StoreFacts.

(** The sample worlds have the five fields. *)
Ltac valid_by_lookup :=
  let k := fresh "k" in
  let Hk := fresh "Hk" in
  intros k Hk; unfold Config.fields in Hk;
  repeat (apply elem_of_cons in Hk as [->|Hk]; [by eexists|]);
  by apply elem_of_nil in Hk.

Lemma fresh_world_valid : valid fresh_world.
Proof. valid_by_lookup. Qed.

Lemma stored_world_valid validity responses :
  valid (stored_world validity responses).
Proof. valid_by_lookup. Qed.

Lemma first_run_world_valid : valid first_run_world.
Proof. valid_by_lookup. Qed.

(** C2, as amended. A batch with a key [k] that the store does not know,
    after keys that it knows, is rejected before any write: the file is
    left as it was and no write is logged. [k] is unknown when it is no key
    of the in-memory record and, if keys precede it and the store is not
    loaded yet, no key of the file either. The call raises [ConfigError k],
    or [TypeError] when the batch names [self], which fails before the body
    runs. When [k] is the first key of the batch, or the batch names
    [self], the world is left exactly as it was; otherwise the keys that
    precede [k] have been assigned in memory by then (after the lazy
    load). *)
Theorem update_rejects_unknown_key w pre k v post :
  known w pre →
  meta_data (meta w) !! k = None →
  (pre ≠ [] → meta_loaded (meta w) = false →
   ∀ content, disk w = Some content → content !! k = None) →
  ∃ w',
    Config.update (pre ++ (k, v) :: post) w
    = (Raise (if Config.names_self (pre ++ (k, v) :: post)
              then TypeError else ConfigError k), w') ∧
    disk w' = disk w ∧
    occurrences is_write (trace w') = occurrences is_write (trace w) ∧
    (pre = [] ∨ Config.names_self (pre ++ (k, v) :: post) = true → w' = w) ∧
    (pre ≠ [] → Config.names_self (pre ++ (k, v) :: post) = false →
     meta_data (meta w') = assign pre (view w)).
Proof.
  intros Hpre Hk Hfile.
  destruct (Config.names_self (pre ++ (k, v) :: post)) eqn:Hself.
  { exists w. rewrite update_self by done. by repeat split. }
  rewrite update_binds by done. unfold bind.
  destruct pre as [|[a b] pre].
  - exists w. simpl app. rewrite update_items_cons, Hk.
    split; [done|]. split; [done|]. split; [done|]. by split.
  - apply Forall_cons in Hpre as [[x Hx] Hpre]. simpl in Hx.
    simpl app. rewrite update_items_cons, Hx.
    assert (Hak : a ≠ k) by (intros ->; by rewrite Hx in Hk).
    assert (Hview : view w !! k = None).
    { unfold view. destruct (meta_loaded (meta w)) eqn:Hl; [done|].
      destruct (disk w) as [content|] eqn:Hd; [|done].
      apply lookup_union_None. split; [|done].
      by apply (Hfile ltac:(done) eq_refl content). }
    rewrite update_items_rejects_loaded; [|done| |].
    + eexists. split; [done|]. simpl. split; [done|]. split.
      * by rewrite occurrences_app, load_events_no_write, Nat.add_0_r.
      * split; [by intros [?|?]|done].
    + apply (known_insert (settle w) pre a b). by apply known_settle.
    + simpl. by rewrite lookup_insert_ne.
Qed.

Lemma update_rejects_unknown_key_witness :
  (∃ w',
     Config.update ([("token", PStr "x")] ++ [("bogus", PStr "y")]) fresh_world
     = (Raise (ConfigError "bogus"), w') ∧
     disk w' = disk fresh_world ∧
     meta_data (meta w')
     = assign [("token", PStr "x")] (view fresh_world)) ∧
  Config.update ([] ++ [("bogus", PStr "y"); ("token", PStr "x")]) fresh_world
  = (Raise (ConfigError "bogus"), fresh_world).
Proof.
  split.
  - destruct (update_rejects_unknown_key fresh_world [("token", PStr "x")]
                "bogus" (PStr "y") [])
      as (w' & Hrun & Hdisk & _ & _ & Hdata).
    + apply Forall_singleton. by eexists.
    + reflexivity.
    + intros _ _ content H. discriminate H.
    + exists w'. split; [exact Hrun|]. split; [exact Hdisk|].
      apply Hdata; [discriminate | reflexivity].
  - destruct (update_rejects_unknown_key fresh_world [] "bogus" (PStr "y")
                [("token", PStr "x")])
      as (w' & Hrun & _ & _ & Hsame & _).
    + apply Forall_nil_2.
    + reflexivity.
    + intros H. by destruct H.
    + rewrite (Hsame (or_introl eq_refl)) in Hrun. exact Hrun.
Defined.

(** C2, as stated, fails: a recognised key that precedes the unrecognised
    one has been assigned in memory when the batch is rejected. *)
Lemma update_not_atomic_in_memory :
  (Config.update [("token", PStr "x"); ("bogus", PStr "y")] fresh_world).1
  = Raise (ConfigError "bogus") ∧
  meta_data (meta fresh_world) !! "token" = Some (PStr "") ∧
  meta_data
    (meta (Config.update [("token", PStr "x"); ("bogus", PStr "y")]
             fresh_world).2) !! "token"
  = Some (PStr "x").
Proof. repeat split; vm_compute; reflexivity. Qed.

(** A batch that names [self] does not reach the body of [update]. *)
Example update_naming_self :
  Config.update [("token", PStr "x"); ("self", PStr "y")] fresh_world
  = (Raise TypeError, fresh_world).
Proof. reflexivity. Qed.

(** The condition on the file in [update_rejects_unknown_key] is needed: a
    key of the file that follows a recognised key is accepted, because the
    lazy load has merged the file into the record by then. *)
Example update_accepts_key_of_file :
  (Config.update [("token", PStr "x"); ("bogus", PStr "y")]
     (mkWorld Config.new (Some {["bogus" := PStr "old"]})
        (fun _ => 0) 0%nat [] true [] None [])).1
  = Ret tt.
Proof. vm_compute. reflexivity. Qed.

(** C7. On a store that has its five fields, every sequence of gets and
    sets over the five fields runs without error; afterwards a get of a key
    returns the value of the most recent set of that key, and once the
    sequence holds a set the file equals the in-memory record. *)
Theorem store_write_then_read w ops :
  valid w → Forall (fun o => op_key o ∈ Config.fields) ops →
  ∃ w', run_ops ops w = (Ret tt, w') ∧
    (∀ k v, last_put k ops = Some v → Config.getattr k w' = (Ret v, w')) ∧
    (has_put ops = true → disk w' = Some (meta_data (meta w'))).
Proof.
  intros Hw Hops.
  destruct (run_ops_spec ops w Hw Hops) as (w' & Hrun & Hw' & Hview & Hput & _).
  exists w'. split; [done|]. split; [|by intros Hp; apply Hput].
  intros k v Hlast.
  assert (Hp : has_put ops = true).
  { clear -Hlast. induction ops as [|o ops IH]; [done|]. simpl in *.
    destruct (last_put k ops); [rewrite IH by done; apply orb_true_r|].
    by destruct o. }
  destruct (Hput Hp) as [Hl _].
  specialize (Hview k). rewrite Hlast in Hview.
  rewrite <- (settle_loaded w' Hl) at 2. apply getattr_known; [|done].
  unfold view in Hview. rewrite Hl in Hview. by rewrite Hview.
Qed.

Lemma store_write_then_read_witness :
  ∃ w',
    run_ops [Put "token" (PStr "a"); Get "client"; Put "token" (PStr "b");
             Put "validity" (PNum 7); Get "token"] fresh_world
    = (Ret tt, w') ∧
    (∀ k v,
       last_put k [Put "token" (PStr "a"); Get "client"; Put "token" (PStr "b");
                   Put "validity" (PNum 7); Get "token"] = Some v →
       Config.getattr k w' = (Ret v, w')) ∧
    (has_put [Put "token" (PStr "a"); Get "client"; Put "token" (PStr "b");
              Put "validity" (PNum 7); Get "token"] = true →
     disk w' = Some (meta_data (meta w'))).
Proof.
  apply (store_write_then_read fresh_world).
  - exact fresh_world_valid.
  - repeat (apply Forall_cons; split; [by vm_compute; set_solver|]).
    apply Forall_nil_2.
Defined.

(** ** The callback listener *)

Lemma append_cons (x : ascii) (a b : string) :
  String x a +:+ b = String x (a +:+ b).
Proof. reflexivity. Qed.

Lemma append_empty_l (b : string) : "" +:+ b = b.
Proof. reflexivity. Qed.

Lemma append_empty_r (s : string) : s +:+ "" = s.
Proof.
  induction s as [|x s IH]; [done|]. by rewrite append_cons, IH.
Qed.

Section PathFacts.

Variable sep : ascii.

Lemma occurs_app (a b : string) :
  occurs sep (a +:+ b) = occurs sep a || occurs sep b.
Proof.
  induction a as [|x a IH]; [done|].
  rewrite append_cons. simpl. by rewrite IH, orb_assoc.
Qed.

Lemma split_none (s : string) : occurs sep s = false → split sep s = [s].
Proof.
  induction s as [|x s IH]; [done|]. simpl.
  intros [Hx Hs]%orb_false_iff. by rewrite Hx, IH.
Qed.

Lemma split_first (pre rest : string) :
  occurs sep pre = false →
  split sep (pre +:+ String sep rest) = pre :: split sep rest.
Proof.
  induction pre as [|x pre IH]; rewrite ?append_cons, ?append_empty_l; simpl.
  - intros _. by rewrite Ascii.eqb_refl.
  - intros [Hx Hs]%orb_false_iff. by rewrite Hx, IH.
Qed.

Lemma split_some (s : string) :
  occurs sep s = true → ∃ a b l, split sep s = a :: b :: l.
Proof.
  induction s as [|x s IH]; [done|]. simpl.
  destruct (Ascii.eqb x sep); simpl.
  - intros _. destruct s as [|y s]; [by eexists _, _, _|].
    simpl. destruct (Ascii.eqb y sep); [by eexists _, _, _|].
    destruct (split sep s); by eexists _, _, _.
  - intros Hs. destruct (IH Hs) as (a & b & l & ->). by eexists _, _, _.
Qed.

Lemma after_last_suffix (pre c : string) :
  occurs sep c = false → after_last sep (pre +:+ String sep c) = c.
Proof.
  intros Hc.
  induction pre as [|x pre IH]; rewrite ?append_cons, ?append_empty_l; simpl.
  - by rewrite Hc, Ascii.eqb_refl.
  - rewrite occurs_app, IH. simpl. by rewrite Ascii.eqb_refl, orb_true_r.
Qed.

End PathFacts.

Lemma do_GET_split path w :
  HTTPRequestHandler.do_GET path w
  = match split "=" path with
    | _ :: code :: _ => (Ret tt, captured code w)
    | _ => (Raise IndexError, w)
    end.
Proof.
  unfold HTTPRequestHandler.do_GET.
  destruct (split "=" path) as [|a [|b l]]; try reflexivity.
  unfold bind, put_code, emit, captured, ret. simpl.
  by rewrite <- !app_assoc.
Qed.

(** C3, as amended. The captured code is the part of the path between its
    first [=] and its next [=], or the end of the path when there is no
    other [=]; in that last case it is the suffix after the last [=]. *)
Theorem do_GET_captures_second_segment pre c rest w :
  occurs "=" pre = false → occurs "=" c = false →
  HTTPRequestHandler.do_GET (request_path pre c rest) w
  = (Ret tt, captured c w) ∧
  spotify_code (captured c w) = Some c ∧
  (rest = None → after_last "=" (request_path pre c rest) = c).
Proof.
  intros Hpre Hc. unfold request_path. split; [|split; [done|]].
  - rewrite do_GET_split, split_first by done.
    destruct rest as [r|].
    + by rewrite split_first.
    + rewrite append_empty_r. by rewrite split_none.
  - intros ->. rewrite append_empty_r. by apply after_last_suffix.
Qed.

Lemma do_GET_captures_second_segment_witness :
  HTTPRequestHandler.do_GET "/?code=abc&state=xyz" fresh_world
  = (Ret tt, captured "abc&state" fresh_world) ∧
  HTTPRequestHandler.do_GET "/?code=abc" fresh_world
  = (Ret tt, captured "abc" fresh_world) ∧
  after_last "=" "/?code=abc" = "abc".
Proof.
  split; [|split].
  - apply (do_GET_captures_second_segment "/?code" "abc&state" (Some "xyz")
             fresh_world); reflexivity.
  - apply (do_GET_captures_second_segment "/?code" "abc" None fresh_world);
      reflexivity.
  - apply (do_GET_captures_second_segment "/?code" "abc" None fresh_world);
      reflexivity.
Defined.

(** C3, as stated, fails on a path with two [=]: the code captured is not
    the suffix after the last [=]. *)
Lemma do_GET_not_after_last :
  spotify_code
    (HTTPRequestHandler.do_GET "/?code=abc&state=xyz" fresh_world).2
  = Some "abc&state" ∧
  after_last "=" "/?code=abc&state=xyz" = "xyz".
Proof. split; reflexivity. Qed.

(** C10. On a path without [=] the handler raises [IndexError] and leaves
    the world as it was: no code is captured, nothing is sent and no
    shutdown is started. On a path with [=] it returns, having captured a
    code and replied. *)
Theorem do_GET_total_iff_equals path w :
  (occurs "=" path = false →
   HTTPRequestHandler.do_GET path w = (Raise IndexError, w)) ∧
  (occurs "=" path = true →
   ∃ code, HTTPRequestHandler.do_GET path w = (Ret tt, captured code w)).
Proof.
  rewrite do_GET_split. split; intros H.
  - by rewrite split_none.
  - destruct (split_some _ _ H) as (a & b & l & ->). by exists b.
Qed.

Example do_GET_favicon :
  HTTPRequestHandler.do_GET "/favicon.ico" fresh_world
  = (Raise IndexError, fresh_world).
Proof. reflexivity. Qed.

(** ** Footprints on the trace *)

Section Footprints.

Context {A B : Type}.
Implicit Types (P Q : event → Prop).

Lemma emits_silent P (m : M A) :
  (∀ w, trace (m w).2 = trace w) → emits P m.
Proof. intros H w. exists []. by rewrite H, app_nil_r. Qed.

Lemma emits_ret P (a : A) : emits P (ret a).
Proof. by apply emits_silent. Qed.

Lemma emits_raise P e : emits P (raise e : M A).
Proof. by apply emits_silent. Qed.

Lemma emits_hang P : emits P (hang : M A).
Proof. by apply emits_silent. Qed.

Lemma emits_gets P (f : World → A) : emits P (gets f).
Proof. by apply emits_silent. Qed.

Lemma emits_bind P (m : M A) (k : A → M B) :
  emits P m → (∀ a, emits P (k a)) → emits P (bind m k).
Proof.
  intros Hm Hk w. unfold bind. destruct (Hm w) as (evs & Ht & Hevs).
  destruct (m w) as [[a| |] w1]; simpl in Ht; eauto.
  destruct (Hk a w1) as (evs' & Ht' & Hevs').
  exists (evs ++ evs'). rewrite Ht', Ht, app_assoc. split; [done|].
  by apply Forall_app.
Qed.

Lemma emits_weaken P Q (m : M A) :
  (∀ e, P e → Q e) → emits P m → emits Q m.
Proof.
  intros HPQ Hm w. destruct (Hm w) as (evs & Ht & Hevs).
  exists evs. split; [done|]. by eapply Forall_impl.
Qed.

End Footprints.

Lemma emits_emit (P : event → Prop) e : P e → emits P (emit e).
Proof. intros He w. exists [e]. split; [done|]. by apply Forall_singleton. Qed.

Lemma emits_put_meta P m : emits P (put_meta m).
Proof. by apply emits_silent. Qed.

Lemma emits_put_disk P d : emits P (put_disk d).
Proof. by apply emits_silent. Qed.

Lemma emits_put_ticks P n : emits P (put_ticks n).
Proof. by apply emits_silent. Qed.

Lemma emits_put_net P l : emits P (put_net l).
Proof. by apply emits_silent. Qed.

Lemma emits_put_inbound P l : emits P (put_inbound l).
Proof. by apply emits_silent. Qed.

Lemma emits_put_code P c : emits P (put_code c).
Proof. by apply emits_silent. Qed.

Create HintDb emits.
#[local] Hint Resolve emits_ret emits_raise emits_hang emits_gets emits_put_meta
  emits_put_disk emits_put_ticks emits_put_net emits_put_inbound
  emits_put_code : emits.

(** One step through the body of an operation: a bind, a branch, or a leaf
    that the hints know. *)
Ltac emits_step :=
  first
    [ solve [auto with emits]
    | apply emits_emit; solve [done | by split]
    | apply emits_bind; [|intros ?]
    | match goal with
      | |- emits _ (match ?x with _ => _ end) => destruct x
      | |- emits _ (if ?b then _ else _) => destruct b
      end ].

Ltac emits_auto := cbv zeta; repeat emits_step.

Lemma emits_time P : emits P time.
Proof. unfold time. emits_auto. Qed.

Lemma emits_getitem P v key : emits P (getitem v key).
Proof. unfold getitem. emits_auto. Qed.

Lemma emits_getitem0 P v : emits P (getitem0 v).
Proof. unfold getitem0. emits_auto. Qed.

Lemma emits_add_time P t v : emits P (add_time t v).
Proof. unfold add_time. emits_auto. Qed.

Lemma emits_lt_time P v t : emits P (lt_time v t).
Proof. unfold lt_time. emits_auto. Qed.

#[local] Hint Resolve emits_time emits_getitem emits_getitem0 emits_add_time
  emits_lt_time : emits.

Lemma emits_load : emits store_event Config.load.
Proof. unfold Config.load, log_info. emits_auto. Qed.

Lemma emits_ensure_loaded : emits store_event Config.ensure_loaded.
Proof. unfold Config.ensure_loaded. pose proof emits_load. emits_auto. Qed.

Lemma emits_write : emits store_event Config.write.
Proof. unfold Config.write, log_info. emits_auto. Qed.

Lemma emits_getattr k : emits store_event (Config.getattr k).
Proof. unfold Config.getattr. pose proof emits_ensure_loaded. emits_auto. Qed.

Lemma emits_update_items kwargs :
  emits store_event (Config.update_items kwargs).
Proof.
  pose proof emits_ensure_loaded.
  induction kwargs as [|[k v] rest IH]; cbn [Config.update_items]; emits_auto.
Qed.

Lemma emits_update kwargs : emits store_event (Config.update kwargs).
Proof.
  unfold Config.update. pose proof emits_write.
  pose proof (emits_update_items kwargs). emits_auto.
Qed.

Lemma store_is_transport e : store_event e → transport_event e.
Proof. by destruct e. Qed.

Lemma transport_is_below e : transport_event e → below_entry e.
Proof. by destruct e. Qed.

Lemma emits_getattr_transport k : emits transport_event (Config.getattr k).
Proof.
  eapply emits_weaken; [apply store_is_transport | apply emits_getattr].
Qed.

Lemma emits_update_transport kwargs :
  emits transport_event (Config.update kwargs).
Proof.
  eapply emits_weaken; [apply store_is_transport | apply emits_update].
Qed.

Lemma emits_request method url fields auth :
  emits transport_event (request method url fields auth).
Proof. unfold request. emits_auto. Qed.

#[local] Hint Resolve emits_getattr_transport emits_update_transport
  emits_request : emits.

Lemma bind_ret_eq {A B} (m : M A) (k : A → M B) w a w' :
  m w = (Ret a, w') → bind m k w = k a w'.
Proof. intros H. unfold bind. by rewrite H. Qed.

Lemma bind_raise_eq {A B} (m : M A) (k : A → M B) w e w' :
  m w = (Raise e, w') → bind m k w = (Raise e, w').
Proof. intros H. unfold bind. by rewrite H. Qed.

Lemma time_eq w : time w = (Ret (now w), ticked w).
Proof. reflexivity. Qed.

Lemma emits_after_emit {A} (P : event → Prop) e (k : M A) :
  emits P k →
  ∀ w, ∃ evs,
    trace ((emit e >>> k) w).2 = trace w ++ e :: evs ∧ Forall P evs.
Proof.
  intros Hk w. unfold bind, emit.
  destruct (Hk (mkWorld (meta w) (disk w) (clock w) (ticks w) (net w)
                  (port_free w) (inbound w) (spotify_code w) (trace w ++ [e])))
    as (evs & Ht & Hevs).
  exists evs. rewrite Ht. simpl. by rewrite <- app_assoc.
Qed.

Lemma occurrences_none f (P : event → Prop) evs :
  (∀ e, P e → f e = false) → Forall P evs → occurrences f evs = 0%nat.
Proof.
  intros Hf. induction 1 as [|e evs He _ IH]; [done|].
  unfold occurrences in *. simpl. by rewrite (Hf e He).
Qed.

Lemma occurrences_cons f e evs :
  occurrences f (e :: evs)
  = ((if f e then 1 else 0) + occurrences f evs)%nat.
Proof. unfold occurrences. simpl. by destruct (f e). Qed.

Lemma load_events_store w : Forall store_event (load_events w).
Proof.
  unfold load_events. destruct (meta_loaded (meta w)); [done|].
  destruct (disk w); [|done]. by apply Forall_singleton.
Qed.

Lemma fields_token : "token" ∈ Config.fields.
Proof. unfold Config.fields. set_solver. Qed.

Lemma fields_validity : "validity" ∈ Config.fields.
Proof. unfold Config.fields. set_solver. Qed.

Lemma fields_refresh : "refresh" ∈ Config.fields.
Proof. unfold Config.fields. set_solver. Qed.

Lemma fields_client : "client" ∈ Config.fields.
Proof. unfold Config.fields. set_solver. Qed.

Lemma fields_secret : "secret" ∈ Config.fields.
Proof. unfold Config.fields. set_solver. Qed.

(** ** The token lifecycle *)

Section TokenFacts.

Variable loads : string → option pyval.
Variable format : pyval → string.

Lemma emits_response P r code : emits P (Client.response loads r code).
Proof. unfold Client.response. emits_auto. Qed.

#[local] Hint Resolve emits_response : emits.

Lemma refresh_entered w :
  ∃ evs,
    trace (Client.refresh loads format w).2
    = trace w ++ Call "refresh" :: evs ∧
    Forall transport_event evs.
Proof.
  unfold Client.refresh. apply emits_after_emit. unfold log_info. emits_auto.
Qed.

Lemma emits_authenticate code :
  emits below_entry (Client.authenticate loads code).
Proof.
  unfold Client.authenticate, log_info.
  assert (∀ k, emits below_entry (Config.getattr k)).
  { intros k. eapply emits_weaken; [|apply emits_getattr_transport].
    apply transport_is_below. }
  assert (∀ kw, emits below_entry (Config.update kw)).
  { intros k. eapply emits_weaken; [|apply emits_update_transport].
    apply transport_is_below. }
  assert (∀ a b c d, emits below_entry (request a b c d)).
  { intros. eapply emits_weaken; [|apply emits_request].
    apply transport_is_below. }
  emits_auto.
Qed.

Lemma emits_do_GET path : emits below_entry (HTTPRequestHandler.do_GET path).
Proof. unfold HTTPRequestHandler.do_GET. emits_auto. Qed.

Lemma emits_serve requests : emits below_entry (serve requests).
Proof.
  induction requests as [|path rest IH]; cbn [serve]; [emits_auto|].
  apply emits_bind; [emits_auto|]. intros _ w.
  destruct (emits_do_GET path w) as (evs & Ht & Hevs).
  destruct (HTTPRequestHandler.do_GET path w) as [[[]|e|] w1]; simpl in Ht;
    eauto.
  - destruct (IH w1) as (evs' & Ht' & Hevs'). exists (evs ++ evs').
    rewrite Ht', Ht, app_assoc. split; [done|]. by apply Forall_app.
  - destruct (IH w1) as (evs' & Ht' & Hevs'). exists (evs ++ evs').
    rewrite Ht', Ht, app_assoc. split; [done|]. by apply Forall_app.
Qed.

Lemma authorize_entered w :
  ∃ evs,
    trace (Client.authorize loads w).2
    = trace w ++ Call "authorize" :: evs ∧
    Forall below_entry evs.
Proof.
  unfold Client.authorize. apply emits_after_emit.
  unfold log_info, serve_forever.
  assert (∀ k, emits below_entry (Config.getattr k)).
  { intros k. eapply emits_weaken; [|apply emits_getattr_transport].
    apply transport_is_below. }
  pose proof emits_authenticate. pose proof emits_serve.
  emits_auto.
Qed.

Lemma token_present_eq w tok v :
  valid w → view w !! "token" = Some tok → truthy tok = true →
  view w !! "validity" = Some (PNum v) →
  Client.token loads format w
  = bind (if v <? now w then Client.refresh loads format else ret tt)
      (fun _ => Config.getattr "token") (ticked (settle w)).
Proof.
  intros Hw Htok Ht Hv. unfold Client.token.
  rewrite (bind_ret_eq _ _ w tok (settle w))
    by (apply getattr_known; [apply Hw, fields_token | done]).
  rewrite Ht. simpl negb. cbv iota. unfold bind at 1.
  rewrite (bind_ret_eq _ _ (settle w) (PNum v) (settle w)).
  2:{ rewrite <- (settle_settle w) at 2.
      apply getattr_known; [|done]. apply valid_settle; [done|].
      apply fields_validity. }
  rewrite (bind_ret_eq _ _ _ _ _ (time_eq (settle w))).
  reflexivity.
Qed.

Lemma getattr_ticked_settle w k v :
  valid w → k ∈ Config.fields → view w !! k = Some v →
  Config.getattr k (ticked (settle w)) = (Ret v, ticked (settle w)).
Proof.
  intros Hw Hk Hv.
  rewrite <- (settle_loaded (ticked (settle w)) eq_refl) at 2.
  apply getattr_known; [|done]. simpl. apply view_superset. by apply Hw.
Qed.

End TokenFacts.

(** C1, as amended. When an access token is stored and the recorded expiry
    is strictly before the current time, the token accessor calls [refresh]
    exactly once, never calls [authorize] and opens no browser. *)
Theorem token_expired_refreshes_once loads format w tok v :
  valid w → view w !! "token" = Some tok → truthy tok = true →
  view w !! "validity" = Some (PNum v) → v < now w →
  ∃ out w' evs,
    Client.token loads format w = (out, w') ∧ trace w' = trace w ++ evs ∧
    occurrences (is_call "refresh") evs = 1%nat ∧
    occurrences (is_call "authorize") evs = 0%nat ∧
    occurrences is_browser evs = 0%nat.
Proof.
  intros Hw Htok Ht Hv Hlt.
  rewrite (token_present_eq loads format w tok v) by done.
  apply Z.ltb_lt in Hlt. rewrite Hlt. unfold bind.
  destruct (refresh_entered loads format (ticked (settle w)))
    as (evs & Hr & Hevs).
  simpl in Hr.
  assert (Hcount : ∀ tl, Forall transport_event tl →
    occurrences (is_call "refresh")
      (load_events w ++ Call "refresh" :: tl) = 1%nat ∧
    occurrences (is_call "authorize")
      (load_events w ++ Call "refresh" :: tl) = 0%nat ∧
    occurrences is_browser (load_events w ++ Call "refresh" :: tl) = 0%nat).
  { intros tl Htl. rewrite !occurrences_app, !occurrences_cons.
    rewrite !(occurrences_none _ store_event (load_events w))
      by (try apply load_events_store; by intros []).
    rewrite !(occurrences_none _ transport_event tl)
      by (try done; by intros []).
    done. }
  destruct (Client.refresh loads format (ticked (settle w))) as [[[]|e|] w1].
  - destruct (emits_getattr_transport "token" w1) as (evs' & Hg & Hevs').
    destruct (Config.getattr "token" w1) as [out w2]. simpl in *.
    exists out, w2, (load_events w ++ Call "refresh" :: (evs ++ evs')).
    split; [done|]. split.
    + by rewrite Hg, Hr, <- !app_assoc.
    + apply Hcount. by apply Forall_app.
  - exists (Raise e), w1, (load_events w ++ Call "refresh" :: evs).
    simpl in *. split; [done|]. split; [by rewrite Hr, <- app_assoc|].
    by apply Hcount.
  - exists Hang, w1, (load_events w ++ Call "refresh" :: evs).
    simpl in *. split; [done|]. split; [by rewrite Hr, <- app_assoc|].
    by apply Hcount.
Qed.

Lemma token_expired_refreshes_once_witness :
  ∃ out w' evs,
    Client.token sample_loads sample_format
      (stored_world 999 [mkResponse 200 "OK" "token"]) = (out, w') ∧
    trace w' = trace (stored_world 999 [mkResponse 200 "OK" "token"]) ++ evs ∧
    occurrences (is_call "refresh") evs = 1%nat ∧
    occurrences (is_call "authorize") evs = 0%nat ∧
    occurrences is_browser evs = 0%nat.
Proof.
  apply (token_expired_refreshes_once sample_loads sample_format
           (stored_world 999 [mkResponse 200 "OK" "token"]) (PStr "A1") 999).
  - apply stored_world_valid.
  - vm_compute. reflexivity.
  - reflexivity.
  - vm_compute. reflexivity.
  - reflexivity.
Defined.

(** C1, as stated, fails when the recorded expiry equals the current time:
    the stored token is returned and [refresh] is not called. *)
Lemma token_at_expiry_not_refreshed :
  view (stored_world 1000 [mkResponse 200 "OK" "token"]) !! "token"
  = Some (PStr "A1") ∧
  view (stored_world 1000 [mkResponse 200 "OK" "token"]) !! "validity"
  = Some (PNum 1000) ∧
  now (stored_world 1000 [mkResponse 200 "OK" "token"]) = 1000 ∧
  (Client.token sample_loads sample_format
     (stored_world 1000 [mkResponse 200 "OK" "token"])).1
  = Ret (PStr "A1") ∧
  occurrences (is_call "refresh")
    (trace (Client.token sample_loads sample_format
              (stored_world 1000 [mkResponse 200 "OK" "token"])).2)
  = 0%nat.
Proof. repeat split; vm_compute; reflexivity. Qed.

(** C5. When no access token is stored, the token accessor calls
    [authorize] exactly once and never [refresh]. When an access token is
    stored and the recorded expiry is not before the current time, it
    returns the stored token: no call of [authorize] or [refresh], no
    request, no browser, the pending responses, the record and the file as
    they were. *)
Theorem token_dispatch loads format w tok :
  valid w → view w !! "token" = Some tok →
  (truthy tok = false →
   ∃ out w' evs,
     Client.token loads format w = (out, w') ∧ trace w' = trace w ++ evs ∧
     occurrences (is_call "authorize") evs = 1%nat ∧
     occurrences (is_call "refresh") evs = 0%nat) ∧
  (truthy tok = true →
   ∀ v, view w !! "validity" = Some (PNum v) → now w ≤ v →
   ∃ w' evs,
     Client.token loads format w = (Ret tok, w') ∧ trace w' = trace w ++ evs ∧
     occurrences (is_call "authorize") evs = 0%nat ∧
     occurrences (is_call "refresh") evs = 0%nat ∧
     occurrences is_request evs = 0%nat ∧
     occurrences is_browser evs = 0%nat ∧
     net w' = net w ∧ view w' = view w ∧ disk w' = disk w).
Proof.
  intros Hw Htok. split.
  - intros Ht. unfold Client.token.
    rewrite (bind_ret_eq _ _ w tok (settle w))
      by (apply getattr_known; [apply Hw, fields_token | done]).
    rewrite Ht. simpl negb. cbv iota. unfold bind.
    destruct (authorize_entered loads (settle w)) as (evs & Ha & Hevs).
    simpl in Ha.
    assert (Hcount : ∀ tl, Forall below_entry tl →
      occurrences (is_call "authorize")
        (load_events w ++ Call "authorize" :: tl) = 1%nat ∧
      occurrences (is_call "refresh")
        (load_events w ++ Call "authorize" :: tl) = 0%nat).
    { intros tl Htl. rewrite !occurrences_app, !occurrences_cons.
      rewrite !(occurrences_none _ store_event (load_events w))
        by (try apply load_events_store; by intros []).
      rewrite !(occurrences_none _ below_entry tl)
        by (try done; by intros ? []).
      done. }
    destruct (Client.authorize loads (settle w)) as [[[]|e|] w1].
    + destruct (emits_getattr_transport "token" w1) as (evs' & Hg & Hevs').
      destruct (Config.getattr "token" w1) as [out w2]. simpl in *.
      exists out, w2, (load_events w ++ Call "authorize" :: (evs ++ evs')).
      split; [done|]. split.
      * by rewrite Hg, Ha, <- !app_assoc.
      * apply Hcount. apply Forall_app. split; [done|].
        eapply Forall_impl; [exact Hevs'|]. apply transport_is_below.
    + exists (Raise e), w1, (load_events w ++ Call "authorize" :: evs).
      simpl in *. split; [done|]. split; [by rewrite Ha, <- app_assoc|].
      by apply Hcount.
    + exists Hang, w1, (load_events w ++ Call "authorize" :: evs).
      simpl in *. split; [done|]. split; [by rewrite Ha, <- app_assoc|].
      by apply Hcount.
  - intros Ht v Hv Hle.
    rewrite (token_present_eq loads format w tok v) by done.
    apply Z.ltb_ge in Hle. rewrite Hle. unfold bind, ret.
    rewrite (getattr_ticked_settle w "token" tok Hw fields_token Htok).
    exists (ticked (settle w)), (load_events w). split; [done|].
    split; [done|].
    rewrite !(occurrences_none _ store_event (load_events w))
      by (try apply load_events_store; by intros []).
    by repeat split.
Qed.

Lemma token_dispatch_witness :
  (∃ out w' evs,
     Client.token sample_loads sample_format first_run_world = (out, w') ∧
     trace w' = trace first_run_world ++ evs ∧
     occurrences (is_call "authorize") evs = 1%nat ∧
     occurrences (is_call "refresh") evs = 0%nat) ∧
  (∃ w' evs,
     Client.token sample_loads sample_format (stored_world 2000 []) = (Ret (PStr "A1"), w') ∧
     trace w' = trace (stored_world 2000 []) ++ evs ∧
     occurrences (is_call "authorize") evs = 0%nat ∧
     occurrences (is_call "refresh") evs = 0%nat ∧
     occurrences is_request evs = 0%nat ∧
     occurrences is_browser evs = 0%nat ∧
     net w' = net (stored_world 2000 []) ∧
     view w' = view (stored_world 2000 []) ∧
     disk w' = disk (stored_world 2000 [])).
Proof.
  split.
  - apply (token_dispatch sample_loads sample_format first_run_world (PStr "")).
    + apply first_run_world_valid.
    + vm_compute. reflexivity.
    + reflexivity.
  - apply (token_dispatch sample_loads sample_format (stored_world 2000 []) (PStr "A1"))
      with (v := 2000).
    + apply stored_world_valid.
    + vm_compute. reflexivity.
    + reflexivity.
    + vm_compute. reflexivity.
    + vm_compute. discriminate.
Defined.

(** ** The token endpoint *)

Section Exchange.

Variable loads : string → option pyval.

Lemma request_eq method url fields auth w r rest :
  net w = r :: rest →
  ∃ w', request method url fields auth w = (Ret r, w') ∧
    meta w' = meta w ∧ disk w' = disk w ∧ net w' = rest ∧
    clock w' = clock w ∧ ticks w' = ticks w.
Proof.
  intros Hnet. unfold request, bind, emit, gets. simpl. rewrite Hnet.
  eexists. split; [reflexivity|]. by repeat split.
Qed.

Lemma response_ok r v w :
  status r = 200 → loads (data r) = Some v →
  Client.response loads r 200 w = (Ret v, w).
Proof.
  intros Hs Hl. unfold Client.response. rewrite Hs, Hl. reflexivity.
Qed.

Lemma response_fails r w :
  status r ≠ 200 →
  Client.response loads r 200 w
  = (Raise (SpotifyError (status r) (reason r) (data r)), w).
Proof.
  intros Hs. unfold Client.response.
  by destruct (Z.eqb_spec (status r) 200).
Qed.

Lemma emit_eq e w : emit e w = (Ret tt, emitted e w).
Proof. reflexivity. Qed.

Lemma add_time_eq t n w : add_time t (PNum n) w = (Ret (PNum (t + n)), w).
Proof. reflexivity. Qed.

Lemma getitem_eq body key v w :
  dict_get body key = Some v → getitem (PDict body) key w = (Ret v, w).
Proof. intros H. unfold getitem. by rewrite H. Qed.

(** The state of the store that [refresh] and [authenticate] find when
    they ask the transport: loaded, with the record the store presents. *)
Lemma getattr_settled w0 w k :
  valid w0 → k ∈ Config.fields →
  meta w = meta (settle w0) →
  ∃ v, view w0 !! k = Some v ∧ Config.getattr k w = (Ret v, w).
Proof.
  intros Hw Hk Hm. destruct (view_superset w0 k (Hw k Hk)) as [v Hv].
  exists v. split; [done|].
  rewrite <- (settle_loaded w) at 2 by (by rewrite Hm).
  apply getattr_known.
  - rewrite Hm. simpl. eauto.
  - unfold view. rewrite Hm. done.
Qed.

Lemma update_settled kwargs w0 w :
  valid w0 → Forall (fun kv => kv.1 ∈ Config.fields) kwargs → kwargs ≠ [] →
  meta w = meta (settle w0) →
  ∃ w', Config.update kwargs w = (Ret tt, w') ∧
    meta_data (meta w') = assign kwargs (view w0) ∧
    disk w' = Some (meta_data (meta w')).
Proof.
  intros Hw Hk Hne Hm. rewrite update_known; [|done| |].
  - eexists. split; [done|]. simpl. unfold view. by rewrite Hm.
  - unfold known. eapply Forall_impl; [exact Hk|]. intros kv Hkv.
    rewrite Hm. simpl. apply view_superset. by apply Hw.
  - by apply names_self_fields.
Qed.

End Exchange.

(** C4, as amended. On a successful response, [refresh] stores the new
    access token and the expiry [now + expires_in], writes the record to the
    file, and leaves every other field as it was: [client], [secret] and
    also [refresh], whether or not the response carries a new refresh
    token. *)
Theorem refresh_persists loads format w r rest body access n c s :
  valid w →
  view w !! "client" = Some c → view w !! "secret" = Some s →
  ascii_only (format c +:+ ":" +:+ format s) = true →
  net w = r :: rest → status r = 200 →
  loads (data r) = Some (PDict body) →
  dict_get body "access_token" = Some access →
  dict_get body "expires_in" = Some (PNum n) →
  ∃ w',
    Client.refresh loads format w = (Ret tt, w') ∧
    meta_data (meta w') !! "token" = Some access ∧
    meta_data (meta w') !! "validity" = Some (PNum (now w + n)) ∧
    meta_data (meta w') !! "refresh" = view w !! "refresh" ∧
    (∀ k, k ≠ "token" → k ≠ "validity" →
          meta_data (meta w') !! k = view w !! k) ∧
    disk w' = Some (meta_data (meta w')).
Proof.
  intros Hw Hc Hsec Hascii Hnet Hs Hl Ha He. unfold Client.refresh, log_info.
  rewrite (bind_ret_eq _ _ _ _ _ (emit_eq _ w)).
  set (w1 := emitted (Call "refresh") w).
  assert (Hw1 : valid w1) by exact Hw.
  destruct (getattr_valid w1 "refresh" Hw1 fields_refresh) as (old & _ & Hg1).
  rewrite (bind_ret_eq _ _ _ _ _ Hg1). cbv zeta.
  destruct (getattr_settled w (settle w1) "client" Hw fields_client eq_refl)
    as (c' & Hc' & Hg2).
  rewrite (bind_ret_eq _ _ _ _ _ Hg2).
  destruct (getattr_settled w (settle w1) "secret" Hw fields_secret eq_refl)
    as (s' & Hs' & Hg3).
  rewrite (bind_ret_eq _ _ _ _ _ Hg3).
  assert (c' = c) as -> by congruence. assert (s' = s) as -> by congruence.
  rewrite Hascii. unfold bind at 1, ret at 1.
  rewrite (bind_ret_eq _ _ _ _ _ (emit_eq _ (settle w1))).
  set (w2 := emitted (Log "Refreshing token") (settle w1)).
  destruct (request_eq "POST" (Client.accounts_url +:+ "/api/token")
              [("refresh_token", old); ("grant_type", PStr "refresh_token")]
              (Some (Basic (format c +:+ ":" +:+ format s))) w2 r rest Hnet)
    as (w3 & Hreq & Hm3 & Hd3 & Hn3 & Hc3 & Ht3).
  rewrite (bind_ret_eq _ _ _ _ _ Hreq).
  rewrite (bind_ret_eq _ _ _ _ _ (response_ok loads r _ w3 Hs Hl)).
  rewrite (bind_ret_eq _ _ _ _ _ (getitem_eq body _ _ w3 Ha)).
  rewrite (bind_ret_eq _ _ _ _ _ (time_eq w3)).
  rewrite (bind_ret_eq _ _ _ _ _ (getitem_eq body _ _ (ticked w3) He)).
  rewrite (bind_ret_eq _ _ _ _ _ (add_time_eq (now w3) n (ticked w3))).
  destruct (update_settled
              [("token", access); ("validity", PNum (now w3 + n))]
              w (ticked w3) Hw) as (w' & Hup & Hdata & Hdisk).
  { repeat (apply Forall_cons; split;
            [first [apply fields_token | apply fields_validity]|]).
    apply Forall_nil_2. }
  { done. }
  { simpl. by rewrite Hm3. }
  exists w'. split; [done|].
  assert (Hnow : now w3 = now w) by (unfold now; by rewrite Hc3, Ht3).
  rewrite Hnow in Hdata. rewrite Hdisk, Hdata. unfold assign. simpl.
  split; [by rewrite lookup_insert_ne, lookup_insert_eq|].
  split; [by rewrite lookup_insert_eq|].
  split; [by rewrite !lookup_insert_ne|].
  split; [|done].
  intros k Hk1 Hk2. by rewrite !lookup_insert_ne.
Qed.

Lemma refresh_persists_witness :
  ∃ w',
    Client.refresh sample_loads sample_format
      (stored_world 999 [mkResponse 200 "OK" "token, rotated"])
    = (Ret tt, w') ∧
    meta_data (meta w') !! "token" = Some (PStr "A2") ∧
    meta_data (meta w') !! "validity" = Some (PNum 4600) ∧
    meta_data (meta w') !! "refresh" = Some (PStr "R1") ∧
    disk w' = Some (meta_data (meta w')).
Proof.
  destruct (refresh_persists sample_loads sample_format
              (stored_world 999 [mkResponse 200 "OK" "token, rotated"])
              (mkResponse 200 "OK" "token, rotated") []
              [("access_token", PStr "A2"); ("expires_in", PNum 3600);
               ("refresh_token", PStr "R2")]
              (PStr "A2") 3600 (PStr "app") (PStr "key"))
    as (w' & Hrun & Htok & Hval & Href & _ & Hdisk).
  - apply stored_world_valid.
  - vm_compute. reflexivity.
  - vm_compute. reflexivity.
  - reflexivity.
  - reflexivity.
  - reflexivity.
  - reflexivity.
  - reflexivity.
  - reflexivity.
  - exists w'. repeat split; [exact Hrun | exact Htok | exact Hval | | exact Hdisk].
    rewrite Href. vm_compute. reflexivity.
Defined.

(** C4, as stated, fails when the response carries a new refresh token:
    [refresh] succeeds and the stored refresh token is still the old one. *)
Lemma refresh_keeps_old_refresh_token :
  sample_loads "token, rotated"
  = Some (PDict [("access_token", PStr "A2"); ("expires_in", PNum 3600);
                 ("refresh_token", PStr "R2")]) ∧
  (Client.refresh sample_loads sample_format
     (stored_world 999 [mkResponse 200 "OK" "token, rotated"])).1
  = Ret tt ∧
  meta_data
    (meta (Client.refresh sample_loads sample_format
             (stored_world 999 [mkResponse 200 "OK" "token, rotated"])).2)
    !! "refresh"
  = Some (PStr "R1").
Proof. repeat split; vm_compute; reflexivity. Qed.

(** C6. When the token endpoint answers with status 200 and the expected
    body, [authenticate] stores the access token, the refresh token and the
    expiry [now + expires_in] and writes the record to the file. With any
    other status it raises [SpotifyError] with the status, the reason and
    the body of the response, and persists nothing: the file and the record
    that the store presents are as they were. *)
Theorem authenticate_persists_or_raises loads w code r rest :
  valid w → net w = r :: rest →
  (status r = 200 →
   ∀ body access n fresh,
     loads (data r) = Some (PDict body) →
     dict_get body "access_token" = Some access →
     dict_get body "expires_in" = Some (PNum n) →
     dict_get body "refresh_token" = Some fresh →
     ∃ w',
       Client.authenticate loads code w = (Ret tt, w') ∧
       meta_data (meta w') !! "token" = Some access ∧
       meta_data (meta w') !! "refresh" = Some fresh ∧
       meta_data (meta w') !! "validity" = Some (PNum (now w + n)) ∧
       (∀ k, k ≠ "token" → k ≠ "validity" → k ≠ "refresh" →
             meta_data (meta w') !! k = view w !! k) ∧
       disk w' = Some (meta_data (meta w'))) ∧
  (status r ≠ 200 →
   ∃ w',
     Client.authenticate loads code w
     = (Raise (SpotifyError (status r) (reason r) (data r)), w') ∧
     disk w' = disk w ∧ view w' = view w ∧
     (meta_loaded (meta w) = true → meta w' = meta w)).
Proof.
  intros Hw Hnet.
  assert (Hstart : ∃ c s w3,
    Client.authenticate loads code w
    = bind (Client.response loads r 200)
        (fun d =>
           let* access := getitem d "access_token" in
           let* t := time in
           let* expires_in := getitem d "expires_in" in
           let* validity := add_time t expires_in in
           let* fresh := getitem d "refresh_token" in
           Config.update [("token", access); ("validity", validity);
                          ("refresh", fresh)]) w3 ∧
    request "POST" (Client.accounts_url +:+ "/api/token")
      [("code", PStr code); ("redirect_uri", PStr Client.redirect_uri);
       ("grant_type", PStr "authorization_code");
       ("client_id", c); ("client_secret", s)] None
      (emitted (Log "Authenticating client")
         (settle (emitted (Call "authenticate") w)))
    = (Ret r, w3) ∧
    meta w3 = meta (settle w) ∧ disk w3 = disk w ∧ now w3 = now w).
  { unfold Client.authenticate, log_info.
    rewrite (bind_ret_eq _ _ _ _ _ (emit_eq _ w)).
    set (w1 := emitted (Call "authenticate") w).
    assert (Hw1 : valid w1) by exact Hw.
    destruct (getattr_valid w1 "client" Hw1 fields_client) as (c & _ & Hg1).
    rewrite (bind_ret_eq _ _ _ _ _ Hg1).
    destruct (getattr_settled w (settle w1) "secret" Hw fields_secret eq_refl)
      as (s & _ & Hg2).
    rewrite (bind_ret_eq _ _ _ _ _ Hg2). cbv zeta.
    rewrite (bind_ret_eq _ _ _ _ _ (emit_eq _ (settle w1))).
    set (w2 := emitted (Log "Authenticating client") (settle w1)).
    destruct (request_eq "POST" (Client.accounts_url +:+ "/api/token")
                [("code", PStr code); ("redirect_uri", PStr Client.redirect_uri);
                 ("grant_type", PStr "authorization_code");
                 ("client_id", c); ("client_secret", s)]
                None w2 r rest Hnet)
      as (w3 & Hreq & Hm3 & Hd3 & Hn3 & Hc3 & Ht3).
    rewrite (bind_ret_eq _ _ _ _ _ Hreq).
    exists c, s, w3. split; [done|]. split; [done|].
    split; [by rewrite Hm3|]. split; [by rewrite Hd3|].
    unfold now. by rewrite Hc3, Ht3. }
  destruct Hstart as (c & s & w3 & Heq & _ & Hm3 & Hd3 & Hnow).
  rewrite Heq. split.
  - intros Hs body access n fresh Hl Ha He Hf.
    rewrite (bind_ret_eq _ _ _ _ _ (response_ok loads r _ w3 Hs Hl)).
    rewrite (bind_ret_eq _ _ _ _ _ (getitem_eq body _ _ w3 Ha)).
    rewrite (bind_ret_eq _ _ _ _ _ (time_eq w3)).
    rewrite (bind_ret_eq _ _ _ _ _ (getitem_eq body _ _ (ticked w3) He)).
    rewrite (bind_ret_eq _ _ _ _ _ (add_time_eq (now w3) n (ticked w3))).
    rewrite (bind_ret_eq _ _ _ _ _ (getitem_eq body _ _ (ticked w3) Hf)).
    destruct (update_settled
                [("token", access); ("validity", PNum (now w3 + n));
                 ("refresh", fresh)]
                w (ticked w3) Hw) as (w' & Hup & Hdata & Hdisk).
    { repeat (apply Forall_cons; split;
              [first [apply fields_token | apply fields_validity
                     | apply fields_refresh]|]).
      apply Forall_nil_2. }
    { done. }
    { done. }
    exists w'. split; [done|].
    rewrite Hnow in Hdata. rewrite Hdisk, Hdata. unfold assign. simpl.
    split; [by rewrite !lookup_insert_ne, lookup_insert_eq by done|].
    split; [by rewrite lookup_insert_eq|].
    split; [by rewrite lookup_insert_ne, lookup_insert_eq|].
    split; [|done].
    intros k Hk1 Hk2 Hk3. by rewrite !lookup_insert_ne.
  - intros Hs. rewrite (bind_raise_eq _ _ _ _ _ (response_fails loads r w3 Hs)).
    exists w3. split; [done|]. split; [done|].
    split; [unfold view at 1; by rewrite Hm3, Hd3|].
    intros Hl. by rewrite Hm3, (settle_loaded w Hl).
Qed.

Lemma authenticate_persists_or_raises_witness :
  (∃ w',
     Client.authenticate sample_loads "abc"
       (stored_world 0 [mkResponse 200 "OK" "token, rotated"])
     = (Ret tt, w') ∧
     meta_data (meta w') !! "token" = Some (PStr "A2") ∧
     meta_data (meta w') !! "refresh" = Some (PStr "R2") ∧
     meta_data (meta w') !! "validity" = Some (PNum 4600) ∧
     disk w' = Some (meta_data (meta w'))) ∧
  (∃ w',
     Client.authenticate sample_loads "abc"
       (stored_world 0 [mkResponse 400 "Bad Request" "invalid_grant"])
     = (Raise (SpotifyError 400 "Bad Request" "invalid_grant"), w') ∧
     disk w' = None ∧
     meta w' = meta (stored_world 0 [])).
Proof.
  split.
  - destruct (proj1 (authenticate_persists_or_raises sample_loads
                (stored_world 0 [mkResponse 200 "OK" "token, rotated"]) "abc"
                (mkResponse 200 "OK" "token, rotated") []
                (stored_world_valid _ _) eq_refl) eq_refl
              [("access_token", PStr "A2"); ("expires_in", PNum 3600);
               ("refresh_token", PStr "R2")]
              (PStr "A2") 3600 (PStr "R2") eq_refl eq_refl eq_refl eq_refl)
      as (w' & Hrun & Htok & Href & Hval & _ & Hdisk).
    exists w'. by repeat split.
  - destruct (proj2 (authenticate_persists_or_raises sample_loads
                (stored_world 0 [mkResponse 400 "Bad Request" "invalid_grant"])
                "abc" (mkResponse 400 "Bad Request" "invalid_grant") []
                (stored_world_valid _ _) eq_refl))
      as (w' & Hrun & Hdisk & _ & Hmeta).
    + simpl. discriminate.
    + exists w'. split; [exact Hrun|]. split; [exact Hdisk|].
      exact (Hmeta eq_refl).
Defined.

(** ** Search *)

Lemma track_of_eq item t w :
  built_from item t → Client.track_of item w = (Ret t, w).
Proof.
  intros (fs & first & others & alb & -> & Hid & Hname & Hart & Hfirst
          & Halb & Halbname).
  unfold Client.track_of.
  rewrite (bind_ret_eq _ _ _ _ _ (getitem_eq fs _ _ w Hid)).
  rewrite (bind_ret_eq _ _ _ _ _ (getitem_eq fs _ _ w Hname)).
  rewrite (bind_ret_eq _ _ _ _ _ (getitem_eq fs _ _ w Hart)).
  unfold bind at 1. simpl getitem0. unfold ret at 1.
  rewrite (bind_ret_eq _ _ _ _ _ (getitem_eq first _ _ w Hfirst)).
  rewrite (bind_ret_eq _ _ _ _ _ (getitem_eq fs _ _ w Halb)).
  rewrite (bind_ret_eq _ _ _ _ _ (getitem_eq alb _ _ w Halbname)).
  by destruct t.
Qed.





(** * Further properties of the code *)

(** ** The store: the lazy load *)

Section LoadOnce.

Context {A B : Type}.

Lemma due_silent (m : M A) :
  (∀ w, trace (m w).2 = trace w ∧ meta (m w).2 = meta w) →
  reads_within_due m.
Proof.
  intros H w. destruct (H w) as [Ht Hm]. exists [].
  rewrite Ht, app_nil_r. split; [done|]. unfold loads_due. by rewrite Hm.
Qed.

Lemma due_bind (m : M A) (k : A → M B) :
  reads_within_due m → (∀ a, reads_within_due (k a)) →
  reads_within_due (bind m k).
Proof.
  intros Hm Hk w. unfold bind. destruct (Hm w) as (evs & Ht & Hle).
  destruct (m w) as [[a| |] w1]; simpl in *; eauto.
  destruct (Hk a w1) as (evs' & Ht' & Hle').
  exists (evs ++ evs'). rewrite Ht', Ht, app_assoc. split; [done|].
  rewrite occurrences_app. lia.
Qed.

End LoadOnce.

Lemma due_load_events w :
  (occurrences is_read (load_events w) ≤ loads_due w)%nat.
Proof.
  unfold load_events, loads_due. destruct (meta_loaded (meta w)); [done|].
  destruct (disk w); unfold occurrences; simpl; lia.
Qed.

Lemma due_ensure_loaded : reads_within_due Config.ensure_loaded.
Proof.
  intros w. rewrite ensure_loaded_settle. exists (load_events w).
  split; [done|]. simpl. pose proof (due_load_events w).
  unfold loads_due at 1. simpl. lia.
Qed.

Lemma due_getattr k : reads_within_due (Config.getattr k).
Proof.
  unfold Config.getattr. apply due_bind; [by apply due_silent|]. intros m.
  destruct (meta_data m !! k); [|by apply due_silent].
  apply due_bind; [apply due_ensure_loaded|]. intros _.
  apply due_bind; [by apply due_silent|]. intros m'.
  destruct (meta_data m' !! k); by apply due_silent.
Qed.

Lemma due_update_items kwargs : reads_within_due (Config.update_items kwargs).
Proof.
  induction kwargs as [|[k v] rest IH]; [by apply due_silent|]. intros w.
  rewrite update_items_cons.
  destruct (meta_data (meta w) !! k).
  - destruct (IH (with_data (<[k := v]> (view w)) (settle w)))
      as (evs & Ht & Hle).
    exists (load_events w ++ evs). rewrite Ht. simpl.
    split; [by rewrite app_assoc|].
    rewrite occurrences_app. pose proof (due_load_events w).
    unfold loads_due at 2 in Hle. simpl in Hle. lia.
  - exists []. by rewrite app_nil_r.
Qed.

Lemma due_write : reads_within_due Config.write.
Proof.
  intros w. exists [Log "Writing config file"]. split; [done|].
  unfold loads_due. simpl. lia.
Qed.

Lemma due_run_ops ops : reads_within_due (run_ops ops).
Proof.
  induction ops as [|o ops IH]; [by apply due_silent|].
  cbn [run_ops]. apply due_bind; [|by intros _].
  destruct o as [k|k v]; simpl.
  - apply due_bind; [apply due_getattr | intros _; by apply due_silent].
  - unfold Config.setattr, Config.update.
    destruct (Config.names_self [(k, v)]); [by apply due_silent|].
    apply due_bind; [apply due_update_items | intros _; apply due_write].
Qed.

(** X1. Whatever sequence of reads and writes of attributes is run, known
    keys or not, the file is read at most once, and not at all when the
    store has been loaded before. *)
Theorem store_reads_file_at_most_once ops w :
  ∃ evs,
    trace (run_ops ops w).2 = trace w ++ evs ∧
    (occurrences is_read evs ≤ 1)%nat ∧
    (meta_loaded (meta w) = true → occurrences is_read evs = 0%nat).
Proof.
  destruct (due_run_ops ops w) as (evs & Ht & Hle). exists evs.
  split; [done|]. unfold loads_due at 2 in Hle.
  split.
  - destruct (meta_loaded (meta w)); lia.
  - intros Hl. rewrite Hl in Hle. lia.
Qed.

(** ** The store: defaults, the file and a new process *)

Lemma new_lookup_field k :
  k ∈ Config.fields → meta_data Config.new !! k = Some (PStr "").
Proof.
  unfold Config.fields. intros Hk.
  repeat (apply elem_of_cons in Hk as [->|Hk]; [done|]).
  by apply elem_of_nil in Hk.
Qed.

Lemma new_lookup_other k :
  k ∉ Config.fields → meta_data Config.new !! k = None.
Proof.
  intros Hk. apply not_elem_of_list_to_map_1. simpl.
  unfold Config.fields in Hk. exact Hk.
Qed.

Lemma getattr_untouched w k :
  meta w = Config.new → k ∈ Config.fields →
  Config.getattr k w
  = (Ret (default (PStr "") (disk w ≫= (.!! k))), settle w).
Proof.
  intros Hm Hk. pose proof (new_lookup_field k Hk) as Hnew.
  apply getattr_known; [rewrite Hm; eauto|].
  unfold view. rewrite Hm. change (meta_loaded Config.new) with false.
  cbv iota. destruct (disk w) as [content|]; [|done].
  rewrite lookup_union. rewrite Hnew. simpl. by destruct (content !! k).
Qed.

(** X2. On a store that nothing has touched yet and whose file, if there
    is one, holds a mapping ([disk] holds nothing else), reading a field
    loads the file and returns the value that the mapping gives to the
    field; a field that the mapping has no entry for, or any field when
    there is no file, reads as the empty string. *)
Theorem getattr_default_or_file w k :
  meta w = Config.new → k ∈ Config.fields →
  Config.getattr k w
  = (Ret match disk w with
         | Some content => default (PStr "") (content !! k)
         | None => PStr ""
         end,
     settle w).
Proof.
  intros Hm Hk. pose proof (new_lookup_field k Hk) as Hnew.
  apply getattr_known; [rewrite Hm; eauto|].
  unfold view. rewrite Hm. change (meta_loaded Config.new) with false.
  cbv iota. destruct (disk w) as [content|]; [|done].
  rewrite lookup_union. rewrite Hnew. by destruct (content !! k).
Qed.

Lemma getattr_default_or_file_witness :
  Config.getattr "token" hand_edited_world
  = (Ret (PStr "A1"), settle hand_edited_world) ∧
  Config.getattr "refresh" hand_edited_world
  = (Ret (PStr ""), settle hand_edited_world) ∧
  Config.getattr "token" fresh_world = (Ret (PStr ""), settle fresh_world).
Proof.
  split; [|split].
  - apply (getattr_default_or_file hand_edited_world "token");
      [reflexivity | apply fields_token].
  - apply (getattr_default_or_file hand_edited_world "refresh");
      [reflexivity | apply fields_refresh].
  - apply (getattr_default_or_file fresh_world "token");
      [reflexivity | apply fields_token].
Defined.

(** X4. A key of the file that is not a field of [Config] is refused with
    [ConfigError] as long as the store is not loaded, and is served with
    the value of the file once any field has been read. *)
Theorem getattr_key_of_file_only w content k v f :
  meta w = Config.new → disk w = Some content →
  content !! k = Some v → k ∉ Config.fields → f ∈ Config.fields →
  Config.getattr k w = (Raise (ConfigError k), w) ∧
  Config.getattr k (Config.getattr f w).2 = (Ret v, settle w).
Proof.
  intros Hm Hd Hc Hk Hf. split.
  - apply getattr_unknown. rewrite Hm. by apply new_lookup_other.
  - rewrite (getattr_untouched w f Hm Hf). simpl.
    assert (Hv : view w !! k = Some v).
    { unfold view. rewrite Hm, Hd. change (meta_loaded Config.new) with false.
      cbv iota. rewrite lookup_union, Hc.
      by destruct (meta_data Config.new !! k). }
    rewrite <- (settle_settle w) at 2. apply getattr_known.
    + simpl. eauto.
    + done.
Qed.

Lemma getattr_key_of_file_only_witness :
  Config.getattr "extra" hand_edited_world
  = (Raise (ConfigError "extra"), hand_edited_world) ∧
  Config.getattr "extra" (Config.getattr "client" hand_edited_world).2
  = (Ret (PStr "more"), settle hand_edited_world).
Proof.
  eapply (getattr_key_of_file_only hand_edited_world _ "extra" (PStr "more")
            "client").
  - reflexivity.
  - reflexivity.
  - vm_compute. reflexivity.
  - unfold Config.fields. intros H.
    repeat (apply elem_of_cons in H as [H|H]; [discriminate H|]).
    by apply elem_of_nil in H.
  - apply fields_client.
Defined.

Lemma valid_update_items kwargs : ∀ w,
  valid w → valid (Config.update_items kwargs w).2.
Proof.
  induction kwargs as [|[k v] rest IH]; intros w Hw; [done|].
  rewrite update_items_cons. destruct (meta_data (meta w) !! k); [|done].
  apply IH. apply (valid_put w k v Hw).
Qed.

Lemma union_defaults (d : gmap string pyval) :
  (∀ k, k ∈ Config.fields → is_Some (d !! k)) →
  d ∪ meta_data Config.new = d.
Proof.
  intros Hd. apply map_eq. intros k. rewrite lookup_union.
  destruct (d !! k) as [x|] eqn:Hk.
  - by destruct (meta_data Config.new !! k).
  - destruct (decide (k ∈ Config.fields)) as [Hin|Hout].
    + destruct (Hd k Hin) as [y Hy]. congruence.
    + by rewrite new_lookup_other.
Qed.

(** X3. What a successful update has written is what a new process reads:
    after [Config.update] over fields, the record that a store built anew
    over the same file presents is the record in memory. *)
Theorem update_survives_restart w kwargs :
  valid w → kwargs ≠ [] → Forall (fun kv => kv.1 ∈ Config.fields) kwargs →
  ∃ w',
    Config.update kwargs w = (Ret tt, w') ∧
    meta_data (meta w') = assign kwargs (view w) ∧
    view (restart w') = meta_data (meta w').
Proof.
  intros Hw Hne Hk.
  assert (Hknown : known w kwargs).
  { unfold known. eapply Forall_impl; [exact Hk|]. intros kv Hkv.
    by apply Hw. }
  rewrite update_known by (done || by apply names_self_fields).
  eexists. split; [done|]. split; [done|].
  unfold view. simpl. apply union_defaults.
  pose proof (valid_update_items kwargs w Hw) as Hv.
  rewrite update_items_known in Hv by done. exact Hv.
Qed.

Lemma update_survives_restart_witness :
  ∃ w',
    Config.update [("token", PStr "A9"); ("validity", PNum 5)] fresh_world
    = (Ret tt, w') ∧
    meta_data (meta w')
    = assign [("token", PStr "A9"); ("validity", PNum 5)] (view fresh_world) ∧
    view (restart w') = meta_data (meta w').
Proof.
  apply (update_survives_restart fresh_world).
  - apply fresh_world_valid.
  - done.
  - repeat (apply Forall_cons; split;
            [first [apply fields_token | apply fields_validity]|]).
    apply Forall_nil_2.
Defined.

(** ** The client *)

(** X5. Building a client loads the store and succeeds exactly when the
    client id and the client secret are both set (truthy); otherwise it
    raises. Either way the store is loaded afterwards and nothing else has
    changed. *)
Theorem init_requires_credentials w c s :
  valid w → view w !! "client" = Some c → view w !! "secret" = Some s →
  Client.init w
  = (if truthy c && truthy s then Ret tt else Raise MissingCredentials,
     settle w).
Proof.
  intros Hw Hc Hs. unfold Client.init.
  rewrite (bind_ret_eq _ _ w c (settle w))
    by (apply getattr_known; [apply Hw, fields_client | done]).
  destruct (truthy c); [|done]. simpl andb.
  destruct (getattr_settled w (settle w) "secret" Hw fields_secret eq_refl)
    as (s' & Hs' & Hg).
  rewrite (bind_ret_eq _ _ _ _ _ Hg).
  assert (s' = s) as -> by congruence. by destruct (truthy s).
Qed.

Lemma init_requires_credentials_witness :
  Client.init fresh_world = (Raise MissingCredentials, settle fresh_world) ∧
  Client.init hand_edited_world = (Ret tt, settle hand_edited_world).
Proof.
  split.
  - apply (init_requires_credentials fresh_world (PStr "") (PStr ""));
      [apply fresh_world_valid | reflexivity | reflexivity].
  - apply (init_requires_credentials hand_edited_world (PStr "app")
             (PStr "key")).
    + valid_by_lookup.
    + vm_compute. reflexivity.
    + vm_compute. reflexivity.
Defined.

(** ** Invariants of the token flows *)

Section Invariants.

Variable loads : string → option pyval.
Variable format : pyval → string.

(** A property of the store alone, kept by reads and by the updates that
    the client makes. *)
Variable I : World → Prop.
Variable allowed : list (string * pyval) → Prop.
Hypothesis I_store :
  ∀ w w', meta w' = meta w → disk w' = disk w → I w → I w'.
Hypothesis I_getattr : ∀ k, preserves I (Config.getattr k).
Hypothesis I_update :
  ∀ kwargs, allowed kwargs → preserves I (Config.update kwargs).
Hypothesis allowed_authenticate :
  ∀ a v r, allowed [("token", a); ("validity", v); ("refresh", r)].
Hypothesis allowed_refresh : ∀ a v, allowed [("token", a); ("validity", v)].

Lemma preserves_store {A} (m : M A) :
  (∀ w, meta (m w).2 = meta w ∧ disk (m w).2 = disk w) → preserves I m.
Proof. intros H w Hw. destruct (H w). by apply (I_store w). Qed.

Lemma preserves_bind {A B} (m : M A) (k : A → M B) :
  preserves I m → (∀ a, preserves I (k a)) → preserves I (bind m k).
Proof.
  intros Hm Hk w Hw. unfold bind. specialize (Hm w Hw).
  destruct (m w) as [[a| |] w1]; simpl in *; [|done|done].
  by apply Hk.
Qed.

Ltac preserves_step :=
  first
    [ solve [auto]
    | apply preserves_store; solve [intros; split; reflexivity]
    | apply preserves_bind; [|intros ?]
    | match goal with
      | |- preserves _ (match ?x with _ => _ end) => destruct x
      | |- preserves _ (if ?b then _ else _) => destruct b
      end ].

Ltac preserves_auto := cbv zeta; repeat preserves_step.

Lemma preserves_request method url fields auth :
  preserves I (request method url fields auth).
Proof. unfold request. preserves_auto. Qed.

Lemma preserves_response r code : preserves I (Client.response loads r code).
Proof. unfold Client.response. preserves_auto. Qed.

Lemma preserves_getitem v key : preserves I (getitem v key).
Proof. unfold getitem. preserves_auto. Qed.

Lemma preserves_getitem0 v : preserves I (getitem0 v).
Proof. unfold getitem0. preserves_auto. Qed.

Lemma preserves_time : preserves I time.
Proof. unfold time. preserves_auto. Qed.

Lemma preserves_add_time t v : preserves I (add_time t v).
Proof. unfold add_time. preserves_auto. Qed.

Lemma preserves_lt_time v t : preserves I (lt_time v t).
Proof. unfold lt_time. preserves_auto. Qed.

Lemma preserves_authenticate code :
  preserves I (Client.authenticate loads code).
Proof.
  pose proof preserves_request. pose proof preserves_response.
  pose proof preserves_getitem. pose proof preserves_time.
  pose proof preserves_add_time.
  unfold Client.authenticate, log_info. preserves_auto.
Qed.

Lemma preserves_refresh : preserves I (Client.refresh loads format).
Proof.
  pose proof preserves_request. pose proof preserves_response.
  pose proof preserves_getitem. pose proof preserves_time.
  pose proof preserves_add_time.
  unfold Client.refresh, log_info. preserves_auto.
Qed.

Lemma preserves_do_GET path : preserves I (HTTPRequestHandler.do_GET path).
Proof. unfold HTTPRequestHandler.do_GET. preserves_auto. Qed.

Lemma preserves_serve requests : preserves I (serve requests).
Proof.
  induction requests as [|path rest IH]; cbn [serve]; [preserves_auto|].
  apply preserves_bind; [preserves_auto|]. intros _ w Hw.
  pose proof (preserves_do_GET path w Hw) as Hget.
  destruct (HTTPRequestHandler.do_GET path w) as [[[]|e|] w1]; simpl in *;
    [done | by apply IH | by apply IH].
Qed.

Lemma preserves_authorize : preserves I (Client.authorize loads).
Proof.
  pose proof preserves_authenticate. pose proof preserves_serve.
  unfold Client.authorize, log_info, serve_forever. preserves_auto.
Qed.

Lemma preserves_token : preserves I (Client.token loads format).
Proof.
  pose proof preserves_authorize. pose proof preserves_refresh.
  pose proof preserves_time. pose proof preserves_lt_time.
  unfold Client.token. preserves_auto.
Qed.

Lemma preserves_tracks_of items : preserves I (Client.tracks_of items).
Proof.
  pose proof preserves_getitem. pose proof preserves_getitem0.
  induction items as [|item rest IH]; cbn [Client.tracks_of];
    unfold Client.track_of; preserves_auto.
Qed.

Lemma preserves_search artist title limit :
  preserves I (Client.search loads format artist title limit).
Proof.
  pose proof preserves_token. pose proof preserves_request.
  pose proof preserves_response. pose proof preserves_getitem.
  pose proof preserves_tracks_of.
  unfold Client.search. preserves_auto.
Qed.

Lemma preserves_replace playlist tracks :
  preserves I (Client.replace loads format playlist tracks).
Proof.
  pose proof preserves_token. pose proof preserves_request.
  pose proof preserves_response.
  unfold Client.replace, log_info. preserves_auto.
Qed.

End Invariants.

Lemma getattr_world k w :
  (Config.getattr k w).2 = w ∨ (Config.getattr k w).2 = settle w.
Proof.
  unfold Config.getattr, bind, gets.
  destruct (meta_data (meta w) !! k); [|by left].
  rewrite ensure_loaded_settle. right.
  by destruct (meta_data (meta (settle w)) !! k).
Qed.

Lemma valid_getattr k : preserves valid (Config.getattr k).
Proof.
  intros w Hw. destruct (getattr_world k w) as [-> | ->]; [done|].
  by apply valid_settle.
Qed.

Lemma valid_update kwargs : preserves valid (Config.update kwargs).
Proof.
  intros w Hw. unfold Config.update.
  destruct (Config.names_self kwargs); [done|]. unfold bind.
  pose proof (valid_update_items kwargs w Hw) as Hv.
  by destruct (Config.update_items kwargs w) as [[[]|e|] w1].
Qed.

Lemma assign_lookup_other kwargs k : ∀ d : gmap string pyval,
  k ∉ kwargs.*1 → assign kwargs d !! k = d !! k.
Proof.
  unfold assign. induction kwargs as [|[a b] rest IH]; intros d Hk; [done|].
  simpl in *. apply not_elem_of_cons in Hk as [Hne Hk].
  rewrite IH by done. by apply lookup_insert_ne.
Qed.

Lemma update_items_shape kwargs : ∀ w,
  meta_loaded (meta w) = true →
  ∃ pre post out,
    kwargs = pre ++ post ∧
    Config.update_items kwargs w
    = (out, with_data (assign pre (meta_data (meta w))) w).
Proof.
  induction kwargs as [|[k v] rest IH]; intros w Hl.
  - exists [], [], (Ret tt). split; [done|]. simpl. unfold ret.
    by rewrite with_data_id.
  - rewrite update_items_cons. destruct (meta_data (meta w) !! k).
    + rewrite (settle_loaded w Hl). unfold view. rewrite Hl.
      destruct (IH (with_data (<[k := v]> (meta_data (meta w))) w) Hl)
        as (pre & post & out & -> & Heq).
      exists ((k, v) :: pre), post, out. split; [done|]. by rewrite Heq.
    + exists [], ((k, v) :: rest), (Raise (ConfigError k)). split; [done|].
      unfold assign. simpl. by rewrite with_data_id.
Qed.

(** Keys that a batch does not name keep their value, whether the batch
    is applied or rejected on the way. *)
Lemma update_keeps_other_keys kwargs k x :
  kwargs ≠ [] → k ∉ kwargs.*1 →
  preserves (fun w => view w !! k = x) (Config.update kwargs).
Proof.
  intros Hne Hk w Hx. destruct kwargs as [|[a b] rest]; [done|].
  simpl in Hk. apply not_elem_of_cons in Hk as [Hak Hk].
  unfold Config.update.
  destruct (Config.names_self ((a, b) :: rest)); [done|].
  unfold bind. rewrite update_items_cons.
  destruct (meta_data (meta w) !! a); [|done].
  destruct (update_items_shape rest
              (with_data (<[a := b]> (view w)) (settle w)) eq_refl)
    as (pre & post & out & -> & ->).
  assert (Hpre : k ∉ pre.*1).
  { intros Hin. apply Hk. rewrite fmap_app. apply elem_of_app. by left. }
  assert (Hlook : assign pre (<[a := b]> (view w)) !! k = x).
  { rewrite assign_lookup_other by done. by rewrite lookup_insert_ne. }
  by destruct out as [[]|e|].
Qed.

(** X15. The record never loses one of its five fields: on a store that
    has them, the token accessor, [search] and [replace] end in a store
    that has them, whether they return, raise or wait. *)
Theorem client_keeps_fields loads format w artist title limit playlist tracks :
  valid w →
  valid (Client.token loads format w).2 ∧
  valid (Client.search loads format artist title limit w).2 ∧
  valid (Client.replace loads format playlist tracks w).2.
Proof.
  intros Hw.
  assert (Hstore : ∀ w1 w2 : World,
            meta w2 = meta w1 → disk w2 = disk w1 → valid w1 → valid w2).
  { intros w1 w2 Hm _ H1 k Hk. rewrite Hm. by apply H1. }
  split; [|split].
  - by apply (preserves_token loads format valid (fun _ => True) Hstore
                valid_getattr (fun kw _ => valid_update kw)).
  - by apply (preserves_search loads format valid (fun _ => True) Hstore
                valid_getattr (fun kw _ => valid_update kw)).
  - by apply (preserves_replace loads format valid (fun _ => True) Hstore
                valid_getattr (fun kw _ => valid_update kw)).
Qed.

Lemma client_keeps_fields_witness :
  valid (Client.token sample_loads sample_format first_run_world).2 ∧
  valid (Client.search sample_loads sample_format "Daft Punk" "" 1
           first_run_world).2 ∧
  valid (Client.replace sample_loads sample_format "p1" [] first_run_world).2.
Proof.
  apply (client_keeps_fields sample_loads sample_format first_run_world).
  apply first_run_world_valid.
Defined.

(** X16. The token flows write [token], [validity] and [refresh] only:
    every other key of the record, the client id and the client secret
    among them, reads after the token accessor, [search] or [replace] as it
    read before, whether they return, raise or wait. *)
Theorem client_keeps_other_keys loads format w k artist title limit playlist
    tracks :
  k ≠ "token" → k ≠ "validity" → k ≠ "refresh" →
  view (Client.token loads format w).2 !! k = view w !! k ∧
  view (Client.search loads format artist title limit w).2 !! k
  = view w !! k ∧
  view (Client.replace loads format playlist tracks w).2 !! k = view w !! k.
Proof.
  intros Ht Hv Hr.
  set (J := fun w' : World => view w' !! k = view w !! k).
  set (ok := fun kw : list (string * pyval) => kw ≠ [] ∧ k ∉ kw.*1).
  assert (Hstore : ∀ w1 w2 : World,
            meta w2 = meta w1 → disk w2 = disk w1 → J w1 → J w2).
  { intros w1 w2 Hm Hd H1. unfold J, view in *. by rewrite Hm, Hd. }
  assert (Hget : ∀ key, preserves J (Config.getattr key)).
  { intros key w1 H1. by destruct (getattr_world key w1) as [-> | ->]. }
  assert (Hupd : ∀ kw, ok kw → preserves J (Config.update kw)).
  { intros kw [Hne Hk]. by apply update_keeps_other_keys. }
  assert (Hauth : ∀ a v r, ok [("token", a); ("validity", v); ("refresh", r)]).
  { intros a v r. split; [done|]. simpl. intros Hin.
    repeat (apply elem_of_cons in Hin as [->|Hin]; [done|]).
    by apply elem_of_nil in Hin. }
  assert (Href : ∀ a v, ok [("token", a); ("validity", v)]).
  { intros a v. split; [done|]. simpl. intros Hin.
    repeat (apply elem_of_cons in Hin as [->|Hin]; [done|]).
    by apply elem_of_nil in Hin. }
  split; [|split].
  - by apply (preserves_token loads format J ok Hstore Hget Hupd Hauth Href).
  - by apply (preserves_search loads format J ok Hstore Hget Hupd Hauth Href).
  - by apply (preserves_replace loads format J ok Hstore Hget Hupd Hauth Href).
Qed.

Lemma client_keeps_other_keys_witness :
  view (Client.token sample_loads sample_format
          (stored_world 999 [mkResponse 200 "OK" "token, rotated"])).2
    !! "secret"
  = view (stored_world 999 [mkResponse 200 "OK" "token, rotated"]) !! "secret".
Proof.
  assert (H1 : "secret" ≠ "token") by discriminate.
  assert (H2 : "secret" ≠ "validity") by discriminate.
  assert (H3 : "secret" ≠ "refresh") by discriminate.
  exact (proj1 (client_keeps_other_keys sample_loads sample_format
                  (stored_world 999 [mkResponse 200 "OK" "token, rotated"])
                  "secret" "" "" 1 "" [] H1 H2 H3)).
Defined.

(** ** The token accessor, end to end *)

Lemma request_full method url fields auth w r rest :
  net w = r :: rest →
  request method url fields auth w
  = (Ret r, delivered rest (emitted (Request method url fields auth) w)).
Proof. intros Hnet. unfold request, bind, emit, gets. simpl. by rewrite Hnet. Qed.

Lemma response_eq loads r code w :
  Client.response loads r code w = (response_outcome loads r code, w).
Proof.
  unfold Client.response, response_outcome.
  destruct (status r =? code); [|done]. simpl. by destruct (loads (data r)).
Qed.

Lemma lt_time_not_numeric v t w :
  numeric v = false → lt_time v t w = (Raise TypeError, w).
Proof. by destruct v. Qed.

(** X12. A stored access token with an expiry that is not a number (the
    empty string that an unset field holds, say) makes the token accessor
    raise [TypeError]: no refresh, no authorization, no request, and the
    stored token is not returned. *)
Theorem token_without_numeric_expiry loads format w tok val :
  valid w → view w !! "token" = Some tok → truthy tok = true →
  view w !! "validity" = Some val → numeric val = false →
  Client.token loads format w = (Raise TypeError, ticked (settle w)).
Proof.
  intros Hw Htok Ht Hv Hnum. unfold Client.token.
  rewrite (bind_ret_eq _ _ w tok (settle w))
    by (apply getattr_known; [apply Hw, fields_token | done]).
  rewrite Ht. simpl negb. cbv iota. unfold bind at 1.
  rewrite (bind_ret_eq _ _ (settle w) val (settle w)).
  2:{ rewrite <- (settle_settle w) at 2.
      apply getattr_known; [|done]. apply valid_settle; [done|].
      apply fields_validity. }
  rewrite (bind_ret_eq _ _ _ _ _ (time_eq (settle w))).
  by rewrite (bind_raise_eq _ _ _ _ _
                (lt_time_not_numeric val (now (settle w)) _ Hnum)).
Qed.

Lemma token_without_numeric_expiry_witness :
  Client.token sample_loads sample_format hand_edited_world
  = (Raise TypeError, ticked (settle hand_edited_world)).
Proof.
  apply (token_without_numeric_expiry sample_loads sample_format
           hand_edited_world (PStr "A1") (PStr "")).
  - valid_by_lookup.
  - vm_compute. reflexivity.
  - reflexivity.
  - vm_compute. reflexivity.
  - reflexivity.
Defined.

Section RefreshCases.

Variable loads : string → option pyval.
Variable format : pyval → string.

(** [refresh] up to the point where it asks the transport. *)
Lemma refresh_asks w c s :
  valid w → view w !! "client" = Some c → view w !! "secret" = Some s →
  ∃ old,
    view w !! "refresh" = Some old ∧
    Client.refresh loads format w
    = bind (if ascii_only (format c +:+ ":" +:+ format s)
            then ret tt else raise UnicodeEncodeError)
        (fun _ =>
           log_info "Refreshing token" >>>
           let* r := request "POST" (Client.accounts_url +:+ "/api/token")
                       [("refresh_token", old);
                        ("grant_type", PStr "refresh_token")]
                       (Some (Basic (format c +:+ ":" +:+ format s))) in
           let* d := Client.response loads r 200 in
           let* access := getitem d "access_token" in
           let* t := time in
           let* expires_in := getitem d "expires_in" in
           let* validity := add_time t expires_in in
           Config.update [("token", access); ("validity", validity)])
        (settle (emitted (Call "refresh") w)).
Proof.
  intros Hw Hc Hs. unfold Client.refresh.
  rewrite (bind_ret_eq _ _ _ _ _ (emit_eq _ w)).
  set (w1 := emitted (Call "refresh") w).
  assert (Hw1 : valid w1) by exact Hw.
  destruct (getattr_valid w1 "refresh" Hw1 fields_refresh) as (old & Hold & Hg1).
  exists old. split; [exact Hold|].
  rewrite (bind_ret_eq _ _ _ _ _ Hg1). cbv zeta.
  destruct (getattr_settled w (settle w1) "client" Hw fields_client eq_refl)
    as (c' & Hc' & Hg2).
  rewrite (bind_ret_eq _ _ _ _ _ Hg2).
  destruct (getattr_settled w (settle w1) "secret" Hw fields_secret eq_refl)
    as (s' & Hs' & Hg3).
  rewrite (bind_ret_eq _ _ _ _ _ Hg3).
  assert (c' = c) as -> by congruence. assert (s' = s) as -> by congruence.
  reflexivity.
Qed.

Lemma refresh_cases w c s r rest :
  valid w → view w !! "client" = Some c → view w !! "secret" = Some s →
  ascii_only (format c +:+ ":" +:+ format s) = true →
  net w = r :: rest →
  (status r ≠ 200 →
   ∃ w', Client.refresh loads format w
         = (Raise (SpotifyError (status r) (reason r) (data r)), w') ∧
         meta w' = meta (settle w) ∧ disk w' = disk w ∧ net w' = rest) ∧
  (status r = 200 →
   ∀ body access n,
     loads (data r) = Some (PDict body) →
     dict_get body "access_token" = Some access →
     dict_get body "expires_in" = Some (PNum n) →
     ∃ w', Client.refresh loads format w = (Ret tt, w') ∧
           meta w'
           = mkMeta (assign [("token", access);
                             ("validity", PNum (now w + n))] (view w)) true ∧
           disk w' = Some (meta_data (meta w')) ∧ net w' = rest).
Proof.
  intros Hw Hc Hs Hascii Hnet.
  destruct (refresh_asks w c s Hw Hc Hs) as (old & _ & Heq).
  rewrite Hascii in Heq. unfold bind at 1, ret at 1 in Heq.
  unfold log_info in Heq.
  rewrite (bind_ret_eq _ _ _ _ _ (emit_eq _ _)) in Heq.
  rewrite (bind_ret_eq _ _ _ _ _
             (request_full _ _ _ _
                (emitted (Log "Refreshing token")
                   (settle (emitted (Call "refresh") w)))
                r rest Hnet)) in Heq.
  rewrite Heq. clear Heq.
  match goal with
  | |- context [bind (Client.response loads r 200) _ ?x] => set (w3 := x)
  end.
  split.
  - intros Hne. rewrite (bind_raise_eq _ _ _ _ _ (response_fails loads r w3 Hne)).
    by exists w3.
  - intros H200 body access n Hl Ha He.
    rewrite (bind_ret_eq _ _ _ _ _ (response_ok loads r _ w3 H200 Hl)).
    rewrite (bind_ret_eq _ _ _ _ _ (getitem_eq body _ _ w3 Ha)).
    rewrite (bind_ret_eq _ _ _ _ _ (time_eq w3)).
    rewrite (bind_ret_eq _ _ _ _ _ (getitem_eq body _ _ (ticked w3) He)).
    rewrite (bind_ret_eq _ _ _ _ _ (add_time_eq (now w3) n (ticked w3))).
    rewrite update_known.
    + eexists. split; [reflexivity|]. by repeat split.
    + done.
    + repeat (apply Forall_cons; split;
              [simpl; apply view_superset;
               first [apply Hw, fields_token | apply Hw, fields_validity]|]).
      apply Forall_nil_2.
    + reflexivity.
Qed.

End RefreshCases.

(** X14. When the client id and the client secret do not encode to ASCII,
    [refresh] raises [UnicodeEncodeError] before anything is logged or
    sent: the world is as the reads of the store left it. *)
Theorem refresh_needs_ascii_keys loads format w c s :
  valid w → view w !! "client" = Some c → view w !! "secret" = Some s →
  ascii_only (format c +:+ ":" +:+ format s) = false →
  Client.refresh loads format w
  = (Raise UnicodeEncodeError, settle (emitted (Call "refresh") w)).
Proof.
  intros Hw Hc Hs Hascii.
  destruct (refresh_asks loads format w c s Hw Hc Hs) as (old & _ & ->).
  by rewrite Hascii.
Qed.

Lemma refresh_needs_ascii_keys_witness :
  Client.refresh sample_loads sample_format accented_world
  = (Raise UnicodeEncodeError,
     settle (emitted (Call "refresh") accented_world)).
Proof.
  apply (refresh_needs_ascii_keys sample_loads sample_format accented_world
           (PStr (String "195" (String "169" ""))) (PStr "key")).
  - valid_by_lookup.
  - vm_compute. reflexivity.
  - vm_compute. reflexivity.
  - reflexivity.
Defined.

Lemma token_expired_eq loads format w tok v :
  valid w → view w !! "token" = Some tok → truthy tok = true →
  view w !! "validity" = Some (PNum v) → v < now w →
  Client.token loads format w
  = bind (Client.refresh loads format) (fun _ => Config.getattr "token")
      (ticked (settle w)).
Proof.
  intros Hw Htok Ht Hv Hlt.
  rewrite (token_present_eq loads format w tok v) by done.
  apply Z.ltb_lt in Hlt. by rewrite Hlt.
Qed.

(** X11. With an expired token and a token endpoint that answers 200, the
    token accessor returns the access token of the response, not the
    stored one, and the store holds and has written it with the expiry
    counted from the time that [refresh] read. *)
Theorem token_returns_refreshed_token loads format w tok v c s r rest body
    access n :
  valid w → view w !! "token" = Some tok → truthy tok = true →
  view w !! "validity" = Some (PNum v) → v < now w →
  view w !! "client" = Some c → view w !! "secret" = Some s →
  ascii_only (format c +:+ ":" +:+ format s) = true →
  net w = r :: rest → status r = 200 →
  loads (data r) = Some (PDict body) →
  dict_get body "access_token" = Some access →
  dict_get body "expires_in" = Some (PNum n) →
  ∃ w',
    Client.token loads format w = (Ret access, w') ∧
    meta_data (meta w')
    = assign [("token", access);
              ("validity", PNum (clock w (S (ticks w)) + n))] (view w) ∧
    disk w' = Some (meta_data (meta w')) ∧ net w' = rest.
Proof.
  intros Hw Htok Ht Hv Hlt Hc Hs Hascii Hnet H200 Hl Ha He.
  rewrite (token_expired_eq loads format w tok v) by done.
  assert (HW : valid (ticked (settle w))) by (by apply valid_settle).
  destruct (refresh_cases loads format (ticked (settle w)) c s r rest
              HW Hc Hs Hascii Hnet) as [_ Hok].
  destruct (Hok H200 body access n Hl Ha He) as (w' & Hrun & Hmeta & Hdisk & Hn).
  rewrite (bind_ret_eq _ _ _ _ _ Hrun).
  exists w'. rewrite Hmeta in *. simpl in *.
  split; [|by repeat split].
  rewrite <- (settle_loaded w') at 2 by (by rewrite Hmeta).
  apply getattr_known.
  - rewrite Hmeta. simpl. unfold assign. simpl.
    rewrite lookup_insert_ne, lookup_insert_eq by done. eauto.
  - unfold view. rewrite Hmeta. simpl. unfold assign. simpl.
    by rewrite lookup_insert_ne, lookup_insert_eq.
Qed.

Lemma token_returns_refreshed_token_witness :
  ∃ w',
    Client.token sample_loads sample_format
      (stored_world 999 [mkResponse 200 "OK" "token"]) = (Ret (PStr "A2"), w') ∧
    meta_data (meta w') !! "validity" = Some (PNum 4601) ∧
    disk w' = Some (meta_data (meta w')).
Proof.
  destruct (token_returns_refreshed_token sample_loads sample_format
              (stored_world 999 [mkResponse 200 "OK" "token"])
              (PStr "A1") 999 (PStr "app") (PStr "key")
              (mkResponse 200 "OK" "token") []
              [("access_token", PStr "A2"); ("expires_in", PNum 3600)]
              (PStr "A2") 3600)
    as (w' & Hrun & Hmeta & Hdisk & _).
  - apply stored_world_valid.
  - vm_compute. reflexivity.
  - reflexivity.
  - vm_compute. reflexivity.
  - reflexivity.
  - vm_compute. reflexivity.
  - vm_compute. reflexivity.
  - reflexivity.
  - reflexivity.
  - reflexivity.
  - reflexivity.
  - reflexivity.
  - reflexivity.
  - exists w'. split; [exact Hrun|]. split; [|exact Hdisk].
    rewrite Hmeta. vm_compute. reflexivity.
Defined.

(** X13. With an expired token and a token endpoint that answers with a
    status other than 200, the token accessor raises [SpotifyError] with
    the status, the reason and the body; it does not fall back on the stale
    token, and the record and the file are as they were. *)
Theorem token_refresh_failure_raises loads format w tok v c s r rest :
  valid w → view w !! "token" = Some tok → truthy tok = true →
  view w !! "validity" = Some (PNum v) → v < now w →
  view w !! "client" = Some c → view w !! "secret" = Some s →
  ascii_only (format c +:+ ":" +:+ format s) = true →
  net w = r :: rest → status r ≠ 200 →
  ∃ w',
    Client.token loads format w
    = (Raise (SpotifyError (status r) (reason r) (data r)), w') ∧
    view w' = view w ∧ disk w' = disk w ∧ net w' = rest.
Proof.
  intros Hw Htok Ht Hv Hlt Hc Hs Hascii Hnet Hne.
  rewrite (token_expired_eq loads format w tok v) by done.
  assert (HW : valid (ticked (settle w))) by (by apply valid_settle).
  destruct (refresh_cases loads format (ticked (settle w)) c s r rest
              HW Hc Hs Hascii Hnet) as [Hfail _].
  destruct (Hfail Hne) as (w' & Hrun & Hmeta & Hdisk & Hn).
  rewrite (bind_raise_eq _ _ _ _ _ Hrun). exists w'.
  split; [done|]. split; [|by split].
  unfold view at 1. by rewrite Hmeta, Hdisk.
Qed.

Lemma token_refresh_failure_raises_witness :
  ∃ w',
    Client.token sample_loads sample_format
      (stored_world 999 [mkResponse 400 "Bad Request" "invalid_grant"])
    = (Raise (SpotifyError 400 "Bad Request" "invalid_grant"), w') ∧
    view w'
    = view (stored_world 999 [mkResponse 400 "Bad Request" "invalid_grant"]) ∧
    disk w' = None ∧ net w' = [].
Proof.
  apply (token_refresh_failure_raises sample_loads sample_format
           (stored_world 999 [mkResponse 400 "Bad Request" "invalid_grant"])
           (PStr "A1") 999 (PStr "app") (PStr "key")
           (mkResponse 400 "Bad Request" "invalid_grant") []).
  - apply stored_world_valid.
  - vm_compute. reflexivity.
  - reflexivity.
  - vm_compute. reflexivity.
  - reflexivity.
  - vm_compute. reflexivity.
  - vm_compute. reflexivity.
  - reflexivity.
  - reflexivity.
  - simpl. discriminate.
Defined.

(** ** Search and replace *)

Section Inert.

Context {A B : Type}.

Lemma inert_bind (m : M A) (k : A → M B) :
  inert m → (∀ a, inert (k a)) → inert (bind m k).
Proof.
  intros Hm Hk w. unfold bind. specialize (Hm w).
  destruct (m w) as [[a| |] w1]; simpl in *; subst; [apply Hk|done|done].
Qed.

End Inert.

Ltac inert_step :=
  first
    [ solve [auto]
    | solve [intros ?; reflexivity]
    | apply inert_bind; [|intros ?]
    | match goal with
      | |- inert (match ?x with _ => _ end) => destruct x
      | |- inert (if ?b then _ else _) => destruct b
      end ].

Ltac inert_auto := cbv zeta; repeat inert_step.

Lemma inert_getitem v key : inert (getitem v key).
Proof. unfold getitem. inert_auto. Qed.

Lemma inert_getitem0 v : inert (getitem0 v).
Proof. unfold getitem0. inert_auto. Qed.

Lemma inert_response loads r code : inert (Client.response loads r code).
Proof. unfold Client.response. inert_auto. Qed.

Lemma inert_tracks_of items : inert (Client.tracks_of items).
Proof.
  pose proof inert_getitem. pose proof inert_getitem0.
  induction items as [|item rest IH]; cbn [Client.tracks_of];
    unfold Client.track_of; inert_auto.
Qed.

Lemma search_query_join artist title :
  join " "
    (if negb (String.eqb title "")
     then app (if negb (String.eqb artist "")
               then app [] ["artist:" +:+ artist] else [])
            ["track:" +:+ title]
     else if negb (String.eqb artist "")
          then app [] ["artist:" +:+ artist] else [])
  = search_query artist title.
Proof. by destruct artist, title. Qed.

(** [search] up to the answer of the catalog. *)
Lemma search_asks loads format artist title limit w tok w1 r rest :
  Client.token loads format w = (Ret tok, w1) → net w1 = r :: rest →
  Client.search loads format artist title limit w
  = bind (Client.response loads r 200)
      (fun d =>
         let* tracks := getitem d "tracks" in
         let* items := getitem tracks "items" in
         if truthy items then
           match items with
           | PList l =>
               let* ts := Client.tracks_of l in
               if limit =? 1
               then match ts with
                    | t :: _ => ret (OneTrack t)
                    | [] => raise IndexError
                    end
               else ret (Tracks ts)
           | _ => raise TypeError
           end
         else ret NoResult)
      (delivered rest
         (emitted (search_request format artist title limit tok) w1)).
Proof.
  intros Htok Hnet. unfold Client.search. cbv zeta.
  rewrite (bind_ret_eq _ _ _ _ _ Htok).
  rewrite search_query_join.
  by rewrite (bind_ret_eq _ _ _ _ _ (request_full _ _ _ _ w1 r rest Hnet)).
Qed.

(** X8. Once the token accessor has given a token, [search] sends exactly
    one request, a GET of [/search] with the limit, the type [track], the
    query built from the non-empty ones of artist and title, and the token
    as bearer; whatever the answer, nothing else changes. An answer with a
    status other than 200 raises [SpotifyError]. *)
Theorem search_sends_one_request loads format artist title limit w tok w1 r
    rest :
  Client.token loads format w = (Ret tok, w1) → net w1 = r :: rest →
  ∃ out,
    Client.search loads format artist title limit w
    = (out,
       delivered rest
         (emitted (search_request format artist title limit tok) w1)) ∧
    (status r ≠ 200 →
     out = Raise (SpotifyError (status r) (reason r) (data r))).
Proof.
  intros Htok Hnet.
  rewrite (search_asks loads format artist title limit w tok w1 r rest)
    by done.
  match goal with
  | |- context [bind ?m ?k ?W] =>
      assert (Hin : inert (bind m k));
      [|specialize (Hin W); destruct (bind m k W) as [out w2] eqn:Hrun]
  end.
  { pose proof (inert_response loads). pose proof inert_getitem.
    pose proof inert_tracks_of. inert_auto. }
  simpl in Hin. subst w2. exists out. split; [done|]. intros Hne.
  rewrite (bind_raise_eq _ _ _ _ _ (response_fails loads r _ Hne)) in Hrun.
  by injection Hrun as <-.
Qed.

Lemma search_sends_one_request_witness :
  ∃ out,
    Client.search sample_loads sample_format "Daft Punk" "" 3
      (stored_world 2000 [mkResponse 404 "Not Found" "nothing"])
    = (out,
       delivered []
         (emitted (search_request sample_format "Daft Punk" "" 3 (PStr "A1"))
            (ticked (stored_world 2000
                       [mkResponse 404 "Not Found" "nothing"])))) ∧
    (404 ≠ 200 → out = Raise (SpotifyError 404 "Not Found" "nothing")).
Proof.
  apply (search_sends_one_request sample_loads sample_format "Daft Punk" "" 3
           (stored_world 2000 [mkResponse 404 "Not Found" "nothing"])
           (PStr "A1") _ (mkResponse 404 "Not Found" "nothing") []).
  - vm_compute. reflexivity.
  - reflexivity.
Defined.

Lemma tracks_of_missing_id good ts fs more w :
  Forall2 built_from good ts → dict_get fs "id" = None →
  Client.tracks_of (good ++ PDict fs :: more) w = (Raise (KeyError "id"), w).
Proof.
  intros Hgood Hid. induction Hgood as [|item t good ts Hitem _ IH].
  - simpl app. cbn [Client.tracks_of]. unfold Client.track_of, bind, getitem.
    by rewrite Hid.
  - simpl app. cbn [Client.tracks_of].
    rewrite (bind_ret_eq _ _ _ _ _ (track_of_eq item t w Hitem)).
    by rewrite (bind_raise_eq _ _ _ _ _ IH).
Qed.

(** X7. [search] builds a track from every item before it picks the first:
    an item without an [id] anywhere in the answer makes it raise
    [KeyError], also when [limit] is 1 and the first item is well formed. *)
Theorem search_fails_on_any_malformed_item loads format artist title limit w
    tok w1 r rest d tracks good ts fs more :
  Client.token loads format w = (Ret tok, w1) →
  net w1 = r :: rest → status r = 200 →
  loads (data r) = Some (PDict d) →
  dict_get d "tracks" = Some (PDict tracks) →
  dict_get tracks "items" = Some (PList (good ++ PDict fs :: more)) →
  Forall2 built_from good ts → dict_get fs "id" = None →
  Client.search loads format artist title limit w
  = (Raise (KeyError "id"),
     delivered rest
       (emitted (search_request format artist title limit tok) w1)).
Proof.
  intros Htok Hnet Hs Hl Htracks Hitems Hgood Hid.
  rewrite (search_asks loads format artist title limit w tok w1 r rest)
    by done.
  rewrite (bind_ret_eq _ _ _ _ _ (response_ok loads r _ _ Hs Hl)).
  rewrite (bind_ret_eq _ _ _ _ _ (getitem_eq d _ _ _ Htracks)).
  rewrite (bind_ret_eq _ _ _ _ _ (getitem_eq tracks _ _ _ Hitems)).
  assert (Htruthy : truthy (PList (good ++ PDict fs :: more)) = true)
    by (by destruct good).
  rewrite Htruthy.
  by rewrite (bind_raise_eq _ _ _ _ _
                (tracks_of_missing_id good ts fs more _ Hgood Hid)).
Qed.

Lemma search_fails_on_any_malformed_item_witness :
  Client.search
    (fun _ =>
       Some (PDict [("tracks",
                     PDict [("items",
                             PList [sample_item "t1" "One More Time"
                                      "Daft Punk" "Discovery";
                                    PDict [("name", PStr "untitled")]])])]))
    sample_format "Daft Punk" "One More Time" 1
    (stored_world 2000 [mkResponse 200 "OK" "tracks"])
  = (Raise (KeyError "id"),
     delivered []
       (emitted (search_request sample_format "Daft Punk" "One More Time" 1
                   (PStr "A1"))
          (ticked (stored_world 2000 [mkResponse 200 "OK" "tracks"])))).
Proof.
  eapply (search_fails_on_any_malformed_item _ sample_format
            "Daft Punk" "One More Time" 1 _ _ _ _ []
            [("tracks",
              PDict [("items",
                      PList [sample_item "t1" "One More Time" "Daft Punk"
                               "Discovery";
                             PDict [("name", PStr "untitled")]])])]
            [("items",
              PList [sample_item "t1" "One More Time" "Daft Punk" "Discovery";
                     PDict [("name", PStr "untitled")]])]
            [sample_item "t1" "One More Time" "Daft Punk" "Discovery"]
            [mkTrack (PStr "Daft Punk") (PStr "One More Time")
               (PStr "Discovery") (PStr "t1")]
            [("name", PStr "untitled")] []).
  - vm_compute. reflexivity.
  - reflexivity.
  - reflexivity.
  - reflexivity.
  - reflexivity.
  - reflexivity.
  - apply List.Forall2_cons; [|apply List.Forall2_nil].
    eexists _, _, _, _. repeat split; reflexivity.
  - reflexivity.
Defined.

(** X6. Once the token accessor has given a token, [replace] logs, sends
    one PUT of the playlist's tracks with the uris of the tracks in order
    and the token as bearer, and then: returns when the answer has status
    201 and a body that is JSON; raises [JSONDecodeError] when the status
    is 201 and the body is not JSON; raises [SpotifyError] on every other
    status, 200 included. The store is not touched. *)
Theorem replace_outcome loads format playlist tracks w tok w1 r rest :
  Client.token loads format w = (Ret tok, w1) → net w1 = r :: rest →
  ∃ out,
    Client.replace loads format playlist tracks w
    = (out,
       delivered rest
         (emitted (replace_request format playlist tracks tok)
            (emitted (Log "Updating playlist") w1))) ∧
    (status r ≠ 201 →
     out = Raise (SpotifyError (status r) (reason r) (data r))) ∧
    (status r = 201 → loads (data r) = None → out = Raise JSONDecodeError) ∧
    (status r = 201 → is_Some (loads (data r)) → out = Ret tt).
Proof.
  intros Htok Hnet. unfold Client.replace, log_info. cbv zeta.
  rewrite (bind_ret_eq _ _ _ _ _ Htok).
  rewrite (bind_ret_eq _ _ _ _ _ (emit_eq _ w1)).
  rewrite (bind_ret_eq _ _ _ _ _
             (request_full _ _ _ _ (emitted (Log "Updating playlist") w1)
                r rest Hnet)).
  unfold bind. rewrite response_eq. unfold response_outcome.
  destruct (Z.eqb_spec (status r) 201) as [H201|Hne].
  - destruct (loads (data r)) as [v|] eqn:Hl.
    + exists (Ret tt). split; [done|]. by repeat split.
    + exists (Raise JSONDecodeError). split; [done|].
      split; [done|]. split; [done|]. by intros _ [? ?].
  - exists (Raise (SpotifyError (status r) (reason r) (data r))).
    by repeat split.
Qed.

Lemma replace_outcome_witness :
  (∃ out,
     Client.replace sample_loads sample_format "p1"
       [mkTrack (PStr "Daft Punk") (PStr "One More Time") (PStr "Discovery")
          (PStr "t1")]
       (stored_world 2000 [mkResponse 200 "OK" "token"])
     = (out,
        delivered []
          (emitted
             (Request "PUT" "https://api.spotify.com/v1/playlists/p1/tracks"
                [("uris", PList [PStr "spotify:track:t1"])]
                (Some (Bearer "A1")))
             (emitted (Log "Updating playlist")
                (ticked (stored_world 2000 [mkResponse 200 "OK" "token"]))))) ∧
     out = Raise (SpotifyError 200 "OK" "token")) ∧
  (∃ out,
     Client.replace sample_loads sample_format "p1" []
       (stored_world 2000 [mkResponse 201 "Created" ""])
     = (out,
        delivered []
          (emitted (replace_request sample_format "p1" [] (PStr "A1"))
             (emitted (Log "Updating playlist")
                (ticked (stored_world 2000 [mkResponse 201 "Created" ""]))))) ∧
     out = Raise JSONDecodeError).
Proof.
  split.
  - destruct (replace_outcome sample_loads sample_format "p1"
                [mkTrack (PStr "Daft Punk") (PStr "One More Time")
                   (PStr "Discovery") (PStr "t1")]
                (stored_world 2000 [mkResponse 200 "OK" "token"])
                (PStr "A1")
                (ticked (stored_world 2000 [mkResponse 200 "OK" "token"]))
                (mkResponse 200 "OK" "token") [])
      as (out & Hrun & Hne & _).
    + vm_compute. reflexivity.
    + reflexivity.
    + exists out. split; [exact Hrun|]. apply Hne. simpl. discriminate.
  - destruct (replace_outcome sample_loads sample_format "p1" []
                (stored_world 2000 [mkResponse 201 "Created" ""])
                (PStr "A1")
                (ticked (stored_world 2000 [mkResponse 201 "Created" ""]))
                (mkResponse 201 "Created" "") [])
      as (out & Hrun & _ & Hjson & _).
    + vm_compute. reflexivity.
    + reflexivity.
    + exists out. split; [exact Hrun|]. by apply Hjson.
Defined.

(** ** Authorization, end to end *)

Lemma bind_gets {A B} (f : World → A) (k : A → M B) w :
  bind (gets f) k w = k (f w) w.
Proof. reflexivity. Qed.

Lemma do_GET_path pre c rest w :
  occurs "=" pre = false → occurs "=" c = false →
  HTTPRequestHandler.do_GET (request_path pre c rest) w
  = (Ret tt, captured c w).
Proof.
  intros Hpre Hc. unfold request_path.
  rewrite do_GET_split, split_first by done. destruct rest as [r|].
  - by rewrite split_first.
  - by rewrite append_empty_r, split_none.
Qed.

Lemma do_GET_no_code path w :
  occurs "=" path = false →
  HTTPRequestHandler.do_GET path w = (Raise IndexError, w).
Proof. intros H. by rewrite do_GET_split, split_none. Qed.

(** The listener passes over the requests without [=] and stops at the
    first request that carries a code. *)
Lemma serve_captures skipped pre c rest later : ∀ w,
  Forall (fun path => occurs "=" path = false) skipped →
  occurs "=" pre = false → occurs "=" c = false →
  serve (skipped ++ request_path pre c rest :: later) w
  = (Ret tt, captured c (with_inbound later w)).
Proof.
  induction skipped as [|path skipped IH]; intros w Hskip Hpre Hc.
  - simpl app. cbn [serve]. unfold bind, put_inbound.
    change (mkWorld (meta w) (disk w) (clock w) (ticks w) (net w)
              (port_free w) later (spotify_code w) (trace w))
      with (with_inbound later w).
    by rewrite do_GET_path.
  - apply Forall_cons in Hskip as [Hpath Hskip].
    simpl app. cbn [serve]. unfold bind at 1, put_inbound at 1.
    rewrite do_GET_no_code by done.
    by rewrite IH.
Qed.

Lemma serve_waits requests : ∀ w,
  Forall (fun path => occurs "=" path = false) requests →
  ∃ w', serve requests w = (Hang, w') ∧
        meta w' = meta w ∧ disk w' = disk w ∧ net w' = net w ∧
        spotify_code w' = spotify_code w ∧ trace w' = trace w.
Proof.
  induction requests as [|path rest IH]; intros w Hreq.
  - by exists w.
  - apply Forall_cons in Hreq as [Hpath Hreq].
    cbn [serve]. unfold bind at 1, put_inbound at 1.
    rewrite do_GET_no_code by done.
    destruct (IH (mkWorld (meta w) (disk w) (clock w) (ticks w) (net w)
                    (port_free w) rest (spotify_code w) (trace w)) Hreq)
      as (w' & -> & Hrest).
    by exists w'.
Qed.

Section AuthorizeCases.

Variable loads : string → option pyval.

Lemma authenticate_ok w code r rest body access n fresh :
  valid w → net w = r :: rest → status r = 200 →
  loads (data r) = Some (PDict body) →
  dict_get body "access_token" = Some access →
  dict_get body "expires_in" = Some (PNum n) →
  dict_get body "refresh_token" = Some fresh →
  ∃ w' c s,
    view w !! "client" = Some c ∧ view w !! "secret" = Some s ∧
    Client.authenticate loads code w = (Ret tt, w') ∧
    meta w'
    = mkMeta (assign [("token", access); ("validity", PNum (now w + n));
                      ("refresh", fresh)] (view w)) true ∧
    disk w' = Some (meta_data (meta w')) ∧ net w' = rest ∧
    inbound w' = inbound w ∧ spotify_code w' = spotify_code w ∧
    Request "POST" (Client.accounts_url +:+ "/api/token")
      [("code", PStr code); ("redirect_uri", PStr Client.redirect_uri);
       ("grant_type", PStr "authorization_code");
       ("client_id", c); ("client_secret", s)] None ∈ trace w'.
Proof.
  intros Hw Hnet Hs Hl Ha He Hf. unfold Client.authenticate, log_info.
  rewrite (bind_ret_eq _ _ _ _ _ (emit_eq _ w)).
  set (w1 := emitted (Call "authenticate") w).
  assert (Hw1 : valid w1) by exact Hw.
  destruct (getattr_valid w1 "client" Hw1 fields_client) as (c & Hc & Hg1).
  rewrite (bind_ret_eq _ _ _ _ _ Hg1).
  destruct (getattr_settled w (settle w1) "secret" Hw fields_secret eq_refl)
    as (s & Hsec & Hg2).
  rewrite (bind_ret_eq _ _ _ _ _ Hg2). cbv zeta.
  rewrite (bind_ret_eq _ _ _ _ _ (emit_eq _ (settle w1))).
  rewrite (bind_ret_eq _ _ _ _ _
             (request_full _ _ _ _
                (emitted (Log "Authenticating client") (settle w1))
                r rest Hnet)).
  match goal with
  | |- context [bind (Client.response loads r 200) _ ?x] => set (w3 := x)
  end.
  rewrite (bind_ret_eq _ _ _ _ _ (response_ok loads r _ w3 Hs Hl)).
  rewrite (bind_ret_eq _ _ _ _ _ (getitem_eq body _ _ w3 Ha)).
  rewrite (bind_ret_eq _ _ _ _ _ (time_eq w3)).
  rewrite (bind_ret_eq _ _ _ _ _ (getitem_eq body _ _ (ticked w3) He)).
  rewrite (bind_ret_eq _ _ _ _ _ (add_time_eq (now w3) n (ticked w3))).
  rewrite (bind_ret_eq _ _ _ _ _ (getitem_eq body _ _ (ticked w3) Hf)).
  rewrite update_known.
  - eexists _, c, s. split; [exact Hc|]. split; [exact Hsec|].
    split; [reflexivity|]. repeat split. simpl.
    rewrite !elem_of_app. left. left. right. apply list_elem_of_here.
  - done.
  - repeat (apply Forall_cons; split;
            [simpl; apply view_superset;
             first [apply Hw, fields_token | apply Hw, fields_validity
                   | apply Hw, fields_refresh]|]).
    apply Forall_nil_2.
  - reflexivity.
Qed.

End AuthorizeCases.

Section AuthorizeFlow.

Variable loads : string → option pyval.

(** [authorize] up to the point where it binds the port. *)
Lemma authorize_opens_browser w :
  valid w →
  ∃ c,
    view w !! "client" = Some c ∧
    Client.authorize loads w
    = bind (if port_free w then emit (Bind 8888) else raise OSError)
        (fun _ =>
           log_info "Listening for authentication callback" >>>
           serve_forever >>>
           let* code := gets spotify_code in
           match code with
           | Some x => Client.authenticate loads x
           | None => raise (AttributeError "spotify_code")
           end)
        (browser_opened c w).
Proof.
  intros Hw. unfold Client.authorize, log_info.
  rewrite (bind_ret_eq _ _ _ _ _ (emit_eq _ w)).
  set (w1 := emitted (Call "authorize") w).
  assert (Hw1 : valid w1) by exact Hw.
  destruct (getattr_valid w1 "client" Hw1 fields_client) as (c & Hc & Hg).
  exists c. split; [exact Hc|].
  rewrite (bind_ret_eq _ _ _ _ _ Hg). cbv zeta.
  rewrite (bind_ret_eq _ _ _ _ _ (emit_eq _ (settle w1))).
  rewrite (bind_ret_eq _ _ _ _ _ (emit_eq _ _)).
  by rewrite bind_gets.
Qed.

End AuthorizeFlow.

(** X10. When port 8888 is taken, [authorize] raises [OSError], and it does
    so after it has opened the browser on the authorization page: the
    trace ends with that, no request is sent and the store is as it was. *)
Theorem authorize_port_taken loads w :
  valid w → port_free w = false →
  ∃ c,
    view w !! "client" = Some c ∧
    Client.authorize loads w = (Raise OSError, browser_opened c w) ∧
    view (browser_opened c w) = view w ∧
    disk (browser_opened c w) = disk w ∧
    net (browser_opened c w) = net w.
Proof.
  intros Hw Hport.
  destruct (authorize_opens_browser loads w Hw) as (c & Hc & ->).
  exists c. by rewrite Hport.
Qed.

Lemma authorize_port_taken_witness :
  ∃ c,
    view (mkWorld Config.new None (fun _ => 0) 0%nat [] false [] None [])
      !! "client" = Some c ∧
    Client.authorize sample_loads
      (mkWorld Config.new None (fun _ => 0) 0%nat [] false [] None [])
    = (Raise OSError,
       browser_opened c
         (mkWorld Config.new None (fun _ => 0) 0%nat [] false [] None [])).
Proof.
  destruct (authorize_port_taken sample_loads
              (mkWorld Config.new None (fun _ => 0) 0%nat [] false [] None []))
    as (c & Hc & Hrun & _).
  - valid_by_lookup.
  - reflexivity.
  - by exists c.
Defined.

(** X17. When no request that reaches the listener carries a [=],
    [authorize] never returns: every request fails in the handler, no code
    is captured, no token request is sent and nothing is stored. *)
Theorem authorize_waits_for_a_code loads w :
  valid w → port_free w = true →
  Forall (fun path => occurs "=" path = false) (inbound w) →
  ∃ w',
    Client.authorize loads w = (Hang, w') ∧
    spotify_code w' = spotify_code w ∧
    view w' = view w ∧ disk w' = disk w ∧ net w' = net w ∧
    occurrences is_request (trace w') = occurrences is_request (trace w).
Proof.
  intros Hw Hport Hreq.
  destruct (authorize_opens_browser loads w Hw) as (c & Hc & ->).
  rewrite Hport. rewrite (bind_ret_eq _ _ _ _ _ (emit_eq _ _)).
  unfold log_info. rewrite (bind_ret_eq _ _ _ _ _ (emit_eq _ _)).
  unfold serve_forever. unfold bind at 1. rewrite bind_gets.
  match goal with
  | |- context [serve ?l ?W] =>
      change l with (inbound w);
      destruct (serve_waits (inbound w) W Hreq)
        as (w' & -> & Hm & Hd & Hn & Hcode & Ht)
  end.
  exists w'. split; [done|]. split; [by rewrite Hcode|].
  split; [unfold view at 1; by rewrite Hm, Hd|].
  split; [by rewrite Hd|]. split; [by rewrite Hn|].
  rewrite Ht. simpl. rewrite !occurrences_app.
  rewrite (occurrences_none _ store_event (load_events w))
    by (try apply load_events_store; by intros []).
  unfold occurrences. simpl. lia.
Qed.

Lemma authorize_waits_for_a_code_witness :
  ∃ w',
    Client.authorize sample_loads
      (mkWorld Config.new None (fun _ => 0) 0%nat [] true
         ["/favicon.ico"; "/"] None [])
    = (Hang, w') ∧
    spotify_code w' = None ∧ net w' = [].
Proof.
  destruct (authorize_waits_for_a_code sample_loads
              (mkWorld Config.new None (fun _ => 0) 0%nat [] true
                 ["/favicon.ico"; "/"] None []))
    as (w' & Hrun & Hcode & _ & _ & Hn & _).
  - valid_by_lookup.
  - reflexivity.
  - repeat (apply Forall_cons; split; [reflexivity|]). apply Forall_nil_2.
  - exists w'. split; [exact Hrun|]. split; [exact Hcode | exact Hn].
Defined.

Section AuthorizeOk.

Variable loads : string → option pyval.

Lemma authorize_ok w skipped pre code rest later r more body access n fresh :
  valid w → port_free w = true →
  inbound w = skipped ++ request_path pre code rest :: later →
  Forall (fun path => occurs "=" path = false) skipped →
  occurs "=" pre = false → occurs "=" code = false →
  net w = r :: more → status r = 200 →
  loads (data r) = Some (PDict body) →
  dict_get body "access_token" = Some access →
  dict_get body "expires_in" = Some (PNum n) →
  dict_get body "refresh_token" = Some fresh →
  ∃ w' c s,
    Client.authorize loads w = (Ret tt, w') ∧
    meta w'
    = mkMeta (assign [("token", access); ("validity", PNum (now w + n));
                      ("refresh", fresh)] (view w)) true ∧
    disk w' = Some (meta_data (meta w')) ∧ net w' = more ∧
    inbound w' = later ∧ spotify_code w' = Some code ∧
    Request "POST" (Client.accounts_url +:+ "/api/token")
      [("code", PStr code); ("redirect_uri", PStr Client.redirect_uri);
       ("grant_type", PStr "authorization_code");
       ("client_id", c); ("client_secret", s)] None ∈ trace w'.
Proof.
  intros Hw Hport Hin Hskip Hpre Hcode Hnet Hs Hl Ha He Hf.
  destruct (authorize_opens_browser loads w Hw) as (cid & _ & ->).
  rewrite Hport. rewrite (bind_ret_eq _ _ _ _ _ (emit_eq _ _)).
  unfold log_info. rewrite (bind_ret_eq _ _ _ _ _ (emit_eq _ _)).
  unfold serve_forever. unfold bind at 1. rewrite bind_gets.
  match goal with
  | |- context [serve ?l ?W] =>
      change l with (inbound w); rewrite Hin;
      rewrite (serve_captures skipped pre code rest later W Hskip Hpre Hcode);
      set (W' := captured code (with_inbound later W))
  end.
  rewrite bind_gets. change (spotify_code W') with (Some code). cbv iota.
  assert (HW' : valid W') by (by apply valid_settle).
  destruct (authenticate_ok loads W' code r more body access n fresh
              HW' Hnet Hs Hl Ha He Hf)
    as (w' & c & s & _ & _ & Hrun & Hmeta & Hdisk & Hn & Hinb & Hsc & Hreq).
  exists w', c, s. split; [exact Hrun|]. split; [exact Hmeta|].
  split; [exact Hdisk|]. split; [exact Hn|]. split; [exact Hinb|].
  split; [exact Hsc | exact Hreq].
Qed.

End AuthorizeOk.

(** X9. [authorize] passes over the requests whose path has no [=] (the
    browser asking for an icon, say), captures the code of the first
    request that has one, and exchanges exactly that code: the token
    request carries it, and on an answer 200 the access token, the refresh
    token and the expiry are stored and written. *)
Theorem authorize_exchanges_captured_code loads w skipped pre code rest later
    r more body access n fresh :
  valid w → port_free w = true →
  inbound w = skipped ++ request_path pre code rest :: later →
  Forall (fun path => occurs "=" path = false) skipped →
  occurs "=" pre = false → occurs "=" code = false →
  net w = r :: more → status r = 200 →
  loads (data r) = Some (PDict body) →
  dict_get body "access_token" = Some access →
  dict_get body "expires_in" = Some (PNum n) →
  dict_get body "refresh_token" = Some fresh →
  ∃ w' c s,
    Client.authorize loads w = (Ret tt, w') ∧
    spotify_code w' = Some code ∧ inbound w' = later ∧
    Request "POST" (Client.accounts_url +:+ "/api/token")
      [("code", PStr code); ("redirect_uri", PStr Client.redirect_uri);
       ("grant_type", PStr "authorization_code");
       ("client_id", c); ("client_secret", s)] None ∈ trace w' ∧
    meta_data (meta w')
    = assign [("token", access); ("validity", PNum (now w + n));
              ("refresh", fresh)] (view w) ∧
    disk w' = Some (meta_data (meta w')).
Proof.
  intros Hw Hport Hin Hskip Hpre Hcode Hnet Hs Hl Ha He Hf.
  destruct (authorize_ok loads w skipped pre code rest later r more body
              access n fresh Hw Hport Hin Hskip Hpre Hcode Hnet Hs Hl Ha He Hf)
    as (w' & c & s & Hrun & Hmeta & Hdisk & _ & Hinb & Hsc & Hreq).
  exists w', c, s. split; [exact Hrun|]. split; [exact Hsc|].
  split; [exact Hinb|]. split; [exact Hreq|].
  split; [by rewrite Hmeta | exact Hdisk].
Qed.

Lemma authorize_exchanges_captured_code_witness :
  ∃ w' c s,
    Client.authorize sample_loads first_run_world = (Ret tt, w') ∧
    spotify_code w' = Some "abc" ∧ inbound w' = [] ∧
    Request "POST" (Client.accounts_url +:+ "/api/token")
      [("code", PStr "abc"); ("redirect_uri", PStr Client.redirect_uri);
       ("grant_type", PStr "authorization_code");
       ("client_id", c); ("client_secret", s)] None ∈ trace w' ∧
    meta_data (meta w')
    = assign [("token", PStr "A2"); ("validity", PNum (1000 + 3600));
              ("refresh", PStr "R2")] (view first_run_world) ∧
    disk w' = Some (meta_data (meta w')).
Proof.
  apply (authorize_exchanges_captured_code sample_loads first_run_world
           ["/favicon.ico"] "/?code" "abc" None []
           (mkResponse 200 "OK" "token, rotated") []
           [("access_token", PStr "A2"); ("expires_in", PNum 3600);
            ("refresh_token", PStr "R2")]
           (PStr "A2") 3600 (PStr "R2")).
  - apply first_run_world_valid.
  - reflexivity.
  - reflexivity.
  - apply Forall_singleton. reflexivity.
  - reflexivity.
  - reflexivity.
  - reflexivity.
  - reflexivity.
  - reflexivity.
  - reflexivity.
  - reflexivity.
  - reflexivity.
Defined.

(** X18. On a store without an access token, with a redirect that carries
    a code and a token endpoint that answers 200, the token accessor
    returns the access token of the answer, which the store then holds and
    has written. *)
Theorem token_first_run_returns_new_token loads format w tok skipped pre code
    rest later r more body access n fresh :
  valid w → view w !! "token" = Some tok → truthy tok = false →
  port_free w = true →
  inbound w = skipped ++ request_path pre code rest :: later →
  Forall (fun path => occurs "=" path = false) skipped →
  occurs "=" pre = false → occurs "=" code = false →
  net w = r :: more → status r = 200 →
  loads (data r) = Some (PDict body) →
  dict_get body "access_token" = Some access →
  dict_get body "expires_in" = Some (PNum n) →
  dict_get body "refresh_token" = Some fresh →
  ∃ w',
    Client.token loads format w = (Ret access, w') ∧
    meta_data (meta w') !! "token" = Some access ∧
    meta_data (meta w') !! "refresh" = Some fresh ∧
    meta_data (meta w') !! "validity" = Some (PNum (now w + n)) ∧
    disk w' = Some (meta_data (meta w')).
Proof.
  intros Hw Htok Ht Hport Hin Hskip Hpre Hcode Hnet Hs Hl Ha He Hf.
  unfold Client.token.
  rewrite (bind_ret_eq _ _ w tok (settle w))
    by (apply getattr_known; [apply Hw, fields_token | done]).
  rewrite Ht. simpl negb. cbv iota.
  assert (HW : valid (settle w)) by (by apply valid_settle).
  destruct (authorize_ok loads (settle w) skipped pre code rest later r more
              body access n fresh HW Hport Hin Hskip Hpre Hcode Hnet Hs Hl
              Ha He Hf)
    as (w' & c & s & Hrun & Hmeta & Hdisk & _).
  rewrite (bind_ret_eq _ _ _ _ _ Hrun).
  assert (Hlook : meta_data (meta w') !! "token" = Some access).
  { rewrite Hmeta. unfold assign. simpl.
    by rewrite !lookup_insert_ne, lookup_insert_eq by done. }
  exists w'. split.
  - rewrite <- (settle_loaded w') at 2 by (by rewrite Hmeta).
    apply getattr_known; [eauto|].
    unfold view. rewrite Hmeta. simpl. by rewrite Hmeta in Hlook.
  - split; [exact Hlook|]. rewrite Hmeta. unfold assign. simpl.
    split; [by rewrite lookup_insert_eq|].
    split; [by rewrite lookup_insert_ne, lookup_insert_eq|].
    rewrite Hdisk, Hmeta. done.
Qed.

Lemma token_first_run_returns_new_token_witness :
  ∃ w',
    Client.token sample_loads sample_format first_run_world
    = (Ret (PStr "A2"), w') ∧
    meta_data (meta w') !! "token" = Some (PStr "A2") ∧
    meta_data (meta w') !! "refresh" = Some (PStr "R2") ∧
    meta_data (meta w') !! "validity" = Some (PNum (1000 + 3600)) ∧
    disk w' = Some (meta_data (meta w')).
Proof.
  apply (token_first_run_returns_new_token sample_loads sample_format
           first_run_world (PStr "") ["/favicon.ico"] "/?code" "abc" None []
           (mkResponse 200 "OK" "token, rotated") []
           [("access_token", PStr "A2"); ("expires_in", PNum 3600);
            ("refresh_token", PStr "R2")]
           (PStr "A2") 3600 (PStr "R2")).
  - apply first_run_world_valid.
  - vm_compute. reflexivity.
  - reflexivity.
  - reflexivity.
  - reflexivity.
  - apply Forall_singleton. reflexivity.
  - reflexivity.
  - reflexivity.
  - reflexivity.
  - reflexivity.
  - reflexivity.
  - reflexivity.
  - reflexivity.
  - reflexivity.
Defined.

(** ** Edges of the store and of the answers *)

(** X19. An update without any key does not load the store: on a store
    that nothing has touched yet it writes the defaults over the file,
    and a new process then reads every field as the empty string, whatever
    the file held. *)
Theorem update_of_nothing_overwrites_file w k :
  meta w = Config.new → k ∈ Config.fields →
  Config.update [] w = (Ret tt, written w) ∧
  disk (written w) = Some (meta_data Config.new) ∧
  Config.getattr k (restart (written w))
  = (Ret (PStr ""), settle (restart (written w))).
Proof.
  intros Hm Hk. split; [done|]. split; [simpl; by rewrite Hm|].
  rewrite (getattr_untouched (restart (written w)) k eq_refl Hk).
  simpl. rewrite Hm. by rewrite (new_lookup_field k Hk).
Qed.

Lemma update_of_nothing_overwrites_file_witness :
  Config.update [] hand_edited_world = (Ret tt, written hand_edited_world) ∧
  disk (written hand_edited_world) = Some (meta_data Config.new) ∧
  Config.getattr "token" (restart (written hand_edited_world))
  = (Ret (PStr ""), settle (restart (written hand_edited_world))).
Proof.
  apply (update_of_nothing_overwrites_file hand_edited_world "token").
  - reflexivity.
  - apply fields_token.
Defined.

(** X20. Setting one field on a store that is not loaded yet loads the
    file first, so that the write keeps the other entries of the file:
    the file written holds the new value of the field and, for every other
    key of the old file, the value it had. *)
Theorem setattr_keeps_file_entries w content k v k' v' :
  valid w → meta_loaded (meta w) = false → disk w = Some content →
  k ∈ Config.fields → k' ≠ k → content !! k' = Some v' →
  ∃ w' file,
    Config.setattr k v w = (Ret tt, w') ∧ disk w' = Some file ∧
    file !! k = Some v ∧ file !! k' = Some v'.
Proof.
  intros Hw Hl Hd Hk Hne Hc. unfold Config.setattr.
  rewrite update_known; [|done| |].
  - eexists _, _. split; [reflexivity|]. split; [reflexivity|].
    unfold assign. simpl. split; [by rewrite lookup_insert_eq|].
    rewrite lookup_insert_ne by done. unfold view. rewrite Hl, Hd.
    rewrite lookup_union, Hc. by destruct (meta_data (meta w) !! k').
  - apply Forall_singleton. simpl. by apply Hw.
  - apply names_self_fields. by apply Forall_singleton.
Qed.

Lemma setattr_keeps_file_entries_witness :
  ∃ w' file,
    Config.setattr "validity" (PNum 7) hand_edited_world = (Ret tt, w') ∧
    disk w' = Some file ∧
    file !! "validity" = Some (PNum 7) ∧ file !! "extra" = Some (PStr "more").
Proof.
  eapply (setattr_keeps_file_entries hand_edited_world _ "validity" (PNum 7)
            "extra" (PStr "more")).
  - valid_by_lookup.
  - reflexivity.
  - reflexivity.
  - apply fields_validity.
  - discriminate.
  - vm_compute. reflexivity.
Defined.

(** X21. What [search] makes of an answer 200 whose body is not the
    expected one: a body without [tracks], or tracks without [items],
    raise [KeyError]; items that are falsy (an empty list, but also null,
    zero, the empty string) give no result. *)
Theorem search_on_unexpected_body loads format artist title limit w tok w1 r
    rest d :
  Client.token loads format w = (Ret tok, w1) →
  net w1 = r :: rest → status r = 200 →
  loads (data r) = Some (PDict d) →
  (dict_get d "tracks" = None →
   (Client.search loads format artist title limit w).1
   = Raise (KeyError "tracks")) ∧
  (∀ tracks, dict_get d "tracks" = Some (PDict tracks) →
     dict_get tracks "items" = None →
     (Client.search loads format artist title limit w).1
     = Raise (KeyError "items")) ∧
  (∀ tracks items, dict_get d "tracks" = Some (PDict tracks) →
     dict_get tracks "items" = Some items → truthy items = false →
     (Client.search loads format artist title limit w).1 = Ret NoResult).
Proof.
  intros Htok Hnet Hs Hl.
  rewrite (search_asks loads format artist title limit w tok w1 r rest)
    by done.
  rewrite (bind_ret_eq _ _ _ _ _ (response_ok loads r _ _ Hs Hl)).
  split; [|split].
  - intros Hnone. unfold bind at 1, getitem at 1. by rewrite Hnone.
  - intros tracks Htracks Hnone.
    rewrite (bind_ret_eq _ _ _ _ _ (getitem_eq d _ _ _ Htracks)).
    unfold bind at 1, getitem at 1. by rewrite Hnone.
  - intros tracks items Htracks Hitems Hfalsy.
    rewrite (bind_ret_eq _ _ _ _ _ (getitem_eq d _ _ _ Htracks)).
    rewrite (bind_ret_eq _ _ _ _ _ (getitem_eq tracks _ _ _ Hitems)).
    by rewrite Hfalsy.
Qed.

Lemma search_on_unexpected_body_witness :
  (Client.search
     (fun _ => Some (PDict [("tracks", PDict [("items", PNone)])]))
     sample_format "Daft Punk" "" 1
     (stored_world 2000 [mkResponse 200 "OK" "tracks"])).1
  = Ret NoResult.
Proof.
  eapply (search_on_unexpected_body _ sample_format "Daft Punk" "" 1
            (stored_world 2000 [mkResponse 200 "OK" "tracks"])
            (PStr "A1") _ (mkResponse 200 "OK" "tracks") []
            [("tracks", PDict [("items", PNone)])]).
  - vm_compute. reflexivity.
  - reflexivity.
  - reflexivity.
  - reflexivity.
  - reflexivity.
  - reflexivity.
  - reflexivity.
Defined.

(** X22. [authenticate] needs the refresh token of the answer: an answer
    200 that carries an access token and an expiry but no refresh token
    raises [KeyError], and nothing of the answer is stored. *)
Theorem authenticate_needs_refresh_token loads w code r rest body access n :
  valid w → net w = r :: rest → status r = 200 →
  loads (data r) = Some (PDict body) →
  dict_get body "access_token" = Some access →
  dict_get body "expires_in" = Some (PNum n) →
  dict_get body "refresh_token" = None →
  ∃ w',
    Client.authenticate loads code w = (Raise (KeyError "refresh_token"), w') ∧
    view w' = view w ∧ disk w' = disk w.
Proof.
  intros Hw Hnet Hs Hl Ha He Hf. unfold Client.authenticate, log_info.
  rewrite (bind_ret_eq _ _ _ _ _ (emit_eq _ w)).
  set (w1 := emitted (Call "authenticate") w).
  assert (Hw1 : valid w1) by exact Hw.
  destruct (getattr_valid w1 "client" Hw1 fields_client) as (c & Hc & Hg1).
  rewrite (bind_ret_eq _ _ _ _ _ Hg1).
  destruct (getattr_settled w (settle w1) "secret" Hw fields_secret eq_refl)
    as (s & Hsec & Hg2).
  rewrite (bind_ret_eq _ _ _ _ _ Hg2). cbv zeta.
  rewrite (bind_ret_eq _ _ _ _ _ (emit_eq _ (settle w1))).
  rewrite (bind_ret_eq _ _ _ _ _
             (request_full _ _ _ _
                (emitted (Log "Authenticating client") (settle w1))
                r rest Hnet)).
  match goal with
  | |- context [bind (Client.response loads r 200) _ ?x] => set (w3 := x)
  end.
  rewrite (bind_ret_eq _ _ _ _ _ (response_ok loads r _ w3 Hs Hl)).
  rewrite (bind_ret_eq _ _ _ _ _ (getitem_eq body _ _ w3 Ha)).
  rewrite (bind_ret_eq _ _ _ _ _ (time_eq w3)).
  rewrite (bind_ret_eq _ _ _ _ _ (getitem_eq body _ _ (ticked w3) He)).
  rewrite (bind_ret_eq _ _ _ _ _ (add_time_eq (now w3) n (ticked w3))).
  unfold bind, getitem. rewrite Hf. by exists (ticked w3).
Qed.

Lemma authenticate_needs_refresh_token_witness :
  ∃ w',
    Client.authenticate sample_loads "abc"
      (stored_world 0 [mkResponse 200 "OK" "token"])
    = (Raise (KeyError "refresh_token"), w') ∧
    view w' = view (stored_world 0 [mkResponse 200 "OK" "token"]) ∧
    disk w' = disk (stored_world 0 [mkResponse 200 "OK" "token"]).
Proof.
  apply (authenticate_needs_refresh_token sample_loads
           (stored_world 0 [mkResponse 200 "OK" "token"]) "abc"
           (mkResponse 200 "OK" "token") []
           [("access_token", PStr "A2"); ("expires_in", PNum 3600)]
           (PStr "A2") 3600).
  - apply stored_world_valid.
  - reflexivity.
  - reflexivity.
  - reflexivity.
  - reflexivity.
  - reflexivity.
  - reflexivity.
Defined.
